(** * XDCPrivacy: the encryption service and the disclosure verification route

    A shallow embedding of [backend/src/services/encryption.ts] (envelope
    encryption, commitments, signatures, the disclosure tree) and of the
    [POST /disclosures/verify] handler of [backend/src/routes/disclosures.ts].

    - Buffers are [list byte]; JavaScript strings are [string] (8-bit
      characters, read as the UTF-8 bytes of the text).
    - [js-sha3]'s [keccak256] and [Buffer]'s hex codec are embedded as
      executable functions.
    - Node's [crypto] (AES-256-GCM, SHA-256), [elliptic] (secp256k1) and the
      [JSON] object are interfaces (type classes); what the proofs need from
      them is stated as laws, and small executable instances are supplied to
      run the model. ECDSA on secp256k1, as [elliptic] computes it, is
      embedded as a further instance.
    - A plain object is the list of its own properties; reading a property
      also finds what the object inherits from [Object.prototype].
    - [crypto.randomBytes] and [ec.genKeyPair] read an explicit entropy tape;
      a thrown exception is the [Throw] result, carrying its message. *)

From Stdlib Require Import NArith ZArith Ascii String List DecimalString.
From Stdlib.Strings Require Import Byte.
From Bignums Require Import BigZ.BigZ.
From stdpp Require Import gmap strings list sorting.

Local Open Scope N_scope.

(** ** JavaScript strings *)

Module Js.

Fixpoint string_forallb (p : ascii → bool) (s : string) : bool :=
  match s with
  | EmptyString => true
  | String c s' => p c && string_forallb p s'
  end.

Fixpoint string_map (f : ascii → ascii) (s : string) : string :=
  match s with
  | EmptyString => EmptyString
  | String c s' => String (f c) (string_map f s')
  end.

Definition lowerChar (c : ascii) : ascii :=
  let n := N_of_ascii c in
  if (65 <=? n) && (n <=? 90) then ascii_of_N (n + 32) else c.

(** [s.toLowerCase()] *)
Definition toLowerCase (s : string) : string := string_map lowerChar s.

(** [s.substring(0, n)] *)
Definition substring0 (n : nat) (s : string) : string := String.substring 0 n s.

(** [parts.join('')] *)
Definition join (parts : list string) : string := String.concat EmptyString parts.

(** [parts.join(sep)] *)
Fixpoint joinWith (sep : string) (parts : list string) : string :=
  match parts with
  | [] => EmptyString
  | [p] => p
  | p :: parts' => p +:+ sep +:+ joinWith sep parts'
  end.

(** The decimal text of an integer number. *)
Definition decimal (n : Z) : string := NilZero.string_of_int (Z.to_int n).

(** [parts.sort()]: the default comparison orders strings by code unit. *)
Definition sort (parts : list string) : list string := merge_sort String.le parts.

(** [s.startsWith(p)] *)
Fixpoint startsWith (p s : string) : bool :=
  match p, s with
  | EmptyString, _ => true
  | String a p', String b s' => Ascii.eqb a b && startsWith p' s'
  | String _ _, EmptyString => false
  end.

(** The bytes of a string in the ['utf8'] encoding, and back. *)
Definition utf8 (s : string) : list byte := list_byte_of_string s.
Definition fromUtf8 (bs : list byte) : string := string_of_list_byte bs.

(** A plain object used as a dictionary keeps its keys in insertion order;
    assigning to an existing key keeps the key's position. *)
Fixpoint obj_set {V} (k : string) (v : V) (o : list (string * V)) : list (string * V) :=
  match o with
  | [] => [(k, v)]
  | (k', v') :: o' => if String.eqb k k' then (k, v) :: o' else (k', v') :: obj_set k v o'
  end.

Fixpoint obj_get {V} (k : string) (o : list (string * V)) : option V :=
  match o with
  | [] => None
  | (k', v') :: o' => if String.eqb k k' then Some v' else obj_get k o'
  end.

(** [names.includes(k)] *)
Definition includes (k : string) (names : list string) : bool :=
  existsb (String.eqb k) names.

(** *** Plain objects and their prototype

    An object written as a literal or returned by [JSON.parse] is kept as
    the list of its own properties, in the order in which [Object.entries]
    enumerates them; its prototype is [Object.prototype]. *)

(** The names that every such object inherits. *)
Definition prototypeMembers : list string :=
  ["constructor"; "__defineGetter__"; "__defineSetter__"; "hasOwnProperty";
   "__lookupGetter__"; "__lookupSetter__"; "isPrototypeOf"; "propertyIsEnumerable";
   "toString"; "valueOf"; "__proto__"; "toLocaleString"].

(** What reading a property gives: the value of an own property, the object
    [Object.prototype] itself (through the inherited accessor [__proto__]),
    one of the inherited functions, or [undefined]. *)
Inductive Any (V : Type) : Type :=
  | Data (v : V)
  | ObjectPrototype
  | Builtin (member : string)
  | Undefined.
Arguments Data {V} v.
Arguments ObjectPrototype {V}.
Arguments Builtin {V} member.
Arguments Undefined {V}.

(** [o[k]]: an own property first, then the prototype. *)
Definition get {V} (k : string) (o : list (string * V)) : Any V :=
  match obj_get k o with
  | Some v => Data v
  | None =>
      if String.eqb k "__proto__" then ObjectPrototype
      else if includes k prototypeMembers then Builtin k
      else Undefined
  end.

Fixpoint decimalValue (s : string) (acc : N) : option N :=
  match s with
  | EmptyString => Some acc
  | String c s' =>
      let n := N_of_ascii c in
      if (48 <=? n) && (n <=? 57) then decimalValue s' (10 * acc + (n - 48)) else None
  end.

(** A key is an array index when it is the decimal text, without leading
    zeros, of an integer from 0 to 2^32 - 2. *)
Definition arrayIndex (k : string) : option N :=
  match k with
  | EmptyString => None
  | String "0" EmptyString => Some 0
  | String "0" _ => None
  | _ =>
      match decimalValue k 0 with
      | Some n => if n <? 4294967295 then Some n else None
      | None => None
      end
  end.

(** A new array index [i] is enumerated after the smaller indices and before
    everything else. *)
Fixpoint insertIndex {V} (i : N) (k : string) (v : V) (o : list (string * V))
  : list (string * V) :=
  match o with
  | [] => [(k, v)]
  | (k', v') :: o' =>
      match arrayIndex k' with
      | Some j => if j <? i then (k', v') :: insertIndex i k v o' else (k, v) :: o
      | None => (k, v) :: o
      end
  end.

(** Creating or updating the own property [k]: array indices are enumerated
    first, in ascending order, then the other keys in the order of their
    creation; an existing key keeps its place. *)
Definition define {V} (k : string) (v : V) (o : list (string * V)) : list (string * V) :=
  match arrayIndex k, obj_get k o with
  | Some i, None => insertIndex i k v o
  | _, _ => obj_set k v o
  end.

(** [o[k] = v] for a primitive [v], on an object that began as [{}] and was
    only ever assigned primitives: the key [__proto__] reaches the inherited
    setter, which ignores a primitive, and no property is made. *)
Definition assign {V} (k : string) (v : V) (o : list (string * V)) : list (string * V) :=
  if String.eqb k "__proto__" then o else define k v o.

(** The name of the function held by an inherited member: [constructor] is
    the function [Object]. *)
Definition functionName (member : string) : string :=
  if String.eqb member "constructor" then "Object" else member.

(** [String(x)], by which the default [sort] compares; [undefined] has no
    key and is placed last. *)
Definition sortKey (x : Any string) : option string :=
  match x with
  | Data s => Some s
  | ObjectPrototype => Some "[object Object]"
  | Builtin member => Some ("function " +:+ functionName member +:+ "() { [native code] }")
  | Undefined => None
  end.

Definition sortsBefore (x y : Any string) : Prop :=
  match sortKey x, sortKey y with
  | Some a, Some b => String.le a b
  | _, None => True
  | None, Some _ => False
  end.

#[global] Instance sortsBefore_dec : RelDecision sortsBefore.
Proof.
  intros x y. unfold sortsBefore.
  destruct (sortKey x) as [a|], (sortKey y) as [b|];
    [apply _ | left; exact I | right; intros [] | left; exact I].
Defined.

(** [items.sort()] on an array that holds strings and inherited members. *)
Definition sortAny (items : list (Any string)) : list (Any string) :=
  merge_sort sortsBefore items.

End Js.

(** ** [Buffer]: hexadecimal encoding *)

Module Hex.

Definition hexDigit (n : N) : ascii :=
  match n with
  | 0 => "0" | 1 => "1" | 2 => "2" | 3 => "3" | 4 => "4" | 5 => "5" | 6 => "6" | 7 => "7"
  | 8 => "8" | 9 => "9" | 10 => "a" | 11 => "b" | 12 => "c" | 13 => "d" | 14 => "e" | _ => "f"
  end%char.

Definition hexValue (c : ascii) : option N :=
  let n := N_of_ascii c in
  if (48 <=? n) && (n <=? 57) then Some (n - 48)
  else if (97 <=? n) && (n <=? 102) then Some (n - 87)
  else if (65 <=? n) && (n <=? 70) then Some (n - 55)
  else None.

Definition isLowerHex (c : ascii) : bool :=
  let n := N_of_ascii c in
  ((48 <=? n) && (n <=? 57)) || ((97 <=? n) && (n <=? 102)).

Definition byteOfN (n : N) : byte :=
  match Byte.of_N (n mod 256) with
  | Some b => b
  | None => x00
  end.

(** [buf.toString('hex')] *)
Fixpoint toString (bs : list byte) : string :=
  match bs with
  | [] => EmptyString
  | b :: bs' =>
      String (hexDigit (Byte.to_N b / 16))
        (String (hexDigit (Byte.to_N b mod 16)) (toString bs'))
  end.

(** [Buffer.from(s, 'hex')]: decoding stops at the first pair of characters
    that is not two hexadecimal digits; a trailing single character is
    dropped. *)
Fixpoint from (s : string) : list byte :=
  match s with
  | String hi (String lo s') =>
      match hexValue hi, hexValue lo with
      | Some h, Some l => byteOfN (16 * h + l) :: from s'
      | _, _ => []
      end
  | _ => []
  end.

End Hex.

(** ** [js-sha3]: Keccak-256 (rate 136 bytes, padding 0x01 .. 0x80) *)

Module Keccak.

Definition mask64 : N := 18446744073709551615.

Definition rotl (x : N) (n : N) : N :=
  N.land (N.lor (N.shiftl x n) (N.shiftr x (64 - n))) mask64.

(** The state is 25 lanes of 64 bits; lane (x, y) is at index x + 5 y. *)
Definition lane (st : list N) (x y : nat) : N :=
  nth (x mod 5 + 5 * (y mod 5))%nat st 0.

Definition rotationOffsets : list N :=
  [ 0;  1; 62; 28; 27;
   36; 44;  6; 55; 20;
    3; 10; 43; 25; 39;
   41; 45; 15; 21;  8;
   18;  2; 61; 56; 14].

Definition roundConstants : list N :=
  [0x0000000000000001; 0x0000000000008082; 0x800000000000808A; 0x8000000080008000;
   0x000000000000808B; 0x0000000080000001; 0x8000000080008081; 0x8000000000008009;
   0x000000000000008A; 0x0000000000000088; 0x0000000080008009; 0x000000008000000A;
   0x000000008000808B; 0x800000000000008B; 0x8000000000008089; 0x8000000000008003;
   0x8000000000008002; 0x8000000000000080; 0x000000000000800A; 0x800000008000000A;
   0x8000000080008081; 0x8000000000008080; 0x0000000080000001; 0x8000000080008008].

Definition coords : list (nat * nat) :=
  flat_map (fun y => map (fun x => (x, y)) (seq 0 5)) (seq 0 5).

Definition theta (st : list N) : list N :=
  let c x := fold_right N.lxor 0 (map (fun y => lane st x y) (seq 0 5)) in
  let d x := N.lxor (c (x + 4)%nat) (rotl (c (x + 1)%nat) 1) in
  map (fun '(x, y) => N.lxor (lane st x y) (d x)) coords.

Definition rhoPi (st : list N) : list N :=
  map (fun '(x, y) =>
         let x0 := ((x + 3 * y) mod 5)%nat in
         rotl (lane st x0 x) (nth (x0 + 5 * x)%nat rotationOffsets 0)) coords.

Definition chi (st : list N) : list N :=
  map (fun '(x, y) =>
         N.lxor (lane st x y)
           (N.land (N.lxor (lane st (x + 1) y) mask64) (lane st (x + 2) y))) coords.

Definition iota (rc : N) (st : list N) : list N :=
  match st with
  | a :: st' => N.lxor a rc :: st'
  | [] => []
  end.

Definition round (st : list N) (rc : N) : list N :=
  iota rc (chi (rhoPi (theta st))).

Definition keccakF (st : list N) : list N := fold_left round roundConstants st.

Definition rate : nat := 136.

Definition pad (msg : list N) : list N :=
  match (rate - 1 - length msg mod rate)%nat with
  | O => msg ++ [0x81]
  | S k => msg ++ [0x01] ++ repeat 0 k ++ [0x80]
  end.

Fixpoint laneOfBytes (bs : list N) : N :=
  match bs with
  | [] => 0
  | b :: bs' => b + 256 * laneOfBytes bs'
  end.

Fixpoint lanesOfBlock (n : nat) (bs : list N) : list N :=
  match n with
  | O => []
  | S n' => laneOfBytes (firstn 8 bs) :: lanesOfBlock n' (skipn 8 bs)
  end.

Fixpoint xorInto (st blk : list N) : list N :=
  match st, blk with
  | a :: st', b :: blk' => N.lxor a b :: xorInto st' blk'
  | _, _ => st
  end.

Fixpoint absorb (fuel : nat) (st : list N) (bs : list N) : list N :=
  match fuel, bs with
  | S fuel', _ :: _ =>
      absorb fuel' (keccakF (xorInto st (lanesOfBlock 17 (firstn rate bs)))) (skipn rate bs)
  | _, _ => st
  end.

Definition bytesOfLane (w : N) : list N :=
  map (fun i => N.shiftr w (8 * N.of_nat i) mod 256) (seq 0 8).

Definition digest (msg : list byte) : list byte :=
  let padded := pad (map Byte.to_N msg) in
  let st := absorb (length padded) (repeat 0 25) padded in
  map (fun i => Hex.byteOfN (nth (i mod 8) (bytesOfLane (nth (i / 8) st 0)) 0)) (seq 0 32).

(** [keccak256(buffer)]: the digest as 64 lower-case hexadecimal digits. *)
Definition keccak256_bytes (msg : list byte) : string := Hex.toString (digest msg).

(** [keccak256(string)]: the string is hashed as its UTF-8 bytes. *)
Definition keccak256 (msg : string) : string := keccak256_bytes (Js.utf8 msg).

End Keccak.

Example keccak256_empty :
  Keccak.keccak256 EmptyString = "c5d2460186f7233c927e7db2dcc703c0e500b653ca82273b7bfad8045d85a470".
Proof. vm_compute. reflexivity. Qed.

Example keccak256_abc :
  Keccak.keccak256 "abc" = "4e03657aea45a94fc7d47ba826c8d667c0d1e6e33a64a036ec44f58fa12d6c45".
Proof. vm_compute. reflexivity. Qed.

(** ** Results, exceptions and the entropy tape *)

(** A call either returns a value or throws; the exception is kept as the
    text of its [message]. *)
Inductive result (A : Type) : Type :=
  | Ok (a : A)
  | Throw (message : string).
Arguments Ok {A} a.
Arguments Throw {A} message.

#[global] Instance result_ret : MRet result := fun A a => Ok a.
#[global] Instance result_bind : MBind result := fun A B k r =>
  match r with
  | Ok a => k a
  | Throw message => Throw message
  end.

(** [try { body } catch (error) { handler(error.message) }] *)
Definition try_catch {A} (body : result A) (handler : string → result A) : result A :=
  match body with
  | Ok a => Ok a
  | Throw message => handler message
  end.

(** The operating system's random source: an unbounded tape of bytes. *)
Definition Entropy : Type := nat → byte.

(** Code that draws randomness threads the tape and may throw. *)
Definition M (A : Type) : Type := Entropy → result (A * Entropy).

#[global] Instance M_ret : MRet M := fun A a e => Ok (a, e).
#[global] Instance M_bind : MBind M := fun A B k m e =>
  match m e with
  | Ok (a, e') => k a e'
  | Throw message => Throw message
  end.

Definition lift {A} (r : result A) : M A := fun e =>
  match r with
  | Ok a => Ok (a, e)
  | Throw message => Throw message
  end.

(** [crypto.randomBytes(n)] *)
Definition randomBytes (n : nat) : M (list byte) := fun e =>
  Ok (map e (seq 0 n), fun i => e (n + i)%nat).

Fixpoint foldM {A B} (f : A → B → M A) (a : A) (l : list B) : M A :=
  match l with
  | [] => mret a
  | b :: l' => a' ← f a b; foldM f a' l'
  end.

(** The value a computation returns on a given tape. *)
Definition run {A} (m : M A) (e : Entropy) : result A :=
  match m e with
  | Ok (a, _) => Ok a
  | Throw message => Throw message
  end.

(** ** Values exchanged as JSON *)

(** Payloads reach the service as parsed JSON. Numbers are kept as integers;
    no claim depends on the floating-point part of JavaScript numbers. *)
#[warnings="-register-all"]
Inductive Value : Type :=
  | VNull
  | VBool (b : bool)
  | VNumber (n : Z)
  | VString (s : string)
  | VArray (items : list Value)
  | VObject (fields : list (string * Value)).

(** Reading a property: [undefined] is [None]. *)
Definition property (v : Value) (name : string) : option Value :=
  match v with
  | VObject fields => Js.obj_get name fields
  | _ => None
  end.

(** The library calls below take strings; any other argument is a
    [TypeError]. *)
Definition asString (v : option Value) : result string :=
  match v with
  | Some (VString s) => Ok s
  | _ => Throw "The argument must be of type string"
  end.

(** ** The platform interfaces *)

(** The [JSON] object. *)
Class Json := {
  JSON_stringify : Value → string;
  JSON_parse : string → result Value
}.

(** Node's [crypto]: the aes-256-gcm cipher ([key], [iv], data) and
    [createHash('sha256')]. Decryption takes the authentication tag and
    throws when it does not verify. *)
Class NodeCrypto := {
  aes256gcm_encrypt : list byte → list byte → list byte → result (list byte * list byte);
  aes256gcm_decrypt : list byte → list byte → list byte → list byte → result (list byte);
  sha256 : list byte → list byte
}.

(** [elliptic]'s [ec] on secp256k1. A key pair made from a private key is a
    [PrivateKey]; one made from a public key is its [Point]; [ec_validate]
    tells whether the scalar lies in the range 1 .. n-1. [ec_derive]
    is [key.derive(point).toArray()], [ec_sign] is
    [key.sign(hash).toDER('hex')], [ec_verify] is [key.verify(hash, sig)]. *)
Class Elliptic := {
  PrivateKey : Type;
  Point : Type;
  ec_genKeyPair : Entropy → PrivateKey * Entropy;
  ec_keyFromPrivate : string → result PrivateKey;
  ec_keyFromPublic : string → result Point;
  ec_validate : PrivateKey → bool;
  ec_getPrivateHex : PrivateKey → string;
  ec_getPublic : PrivateKey → Point;
  ec_encodePoint : Point → string;
  ec_derive : PrivateKey → Point → result (list byte);
  ec_sign : PrivateKey → string → result string;
  ec_verify : Point → string → string → result bool
}.

(** ** [services/encryption.ts] *)

Record KeyPair := {
  privateKey : string;
  publicKey : string
}.

Record EncryptedEnvelope := {
  encryptedData : string;
  iv : string;
  authTag : string;
  encryptedKeys : gmap string string
}.

Record DecryptionResult := {
  success : bool;
  data : option Value;
  error : option string
}.

Record Commitment := {
  commitment : string;
  nonce : string
}.

Record MerkleTree := {
  root : string;
  leaves : list (string * string)
}.

(** The own properties of [disclosedFields], which may hold an inherited
    member besides payload values, and the proof text. *)
Record DisclosureProof := {
  disclosedFields : list (string * Js.Any Value);
  proof : string
}.

(** The object that [encryptDEKForParty] serialises. *)
Definition wrappedKey (ephemeralPublicKey encryptedDek iv authTag : string) : Value :=
  VObject [("ephemeralPublicKey", VString ephemeralPublicKey);
           ("encryptedDek", VString encryptedDek);
           ("iv", VString iv);
           ("authTag", VString authTag)].

Section Encryption.

Context `{J : Json} `{C : NodeCrypto} `{E : Elliptic}.

Definition genKeyPair : M PrivateKey := fun e => Ok (ec_genKeyPair e).

Definition generateKeyPair : M KeyPair :=
  keyPair ← genKeyPair;
  mret {| privateKey := ec_getPrivateHex keyPair;
          publicKey := ec_encodePoint (ec_getPublic keyPair) |}.

Definition generateDEK : M (list byte) := randomBytes 32.

Definition hashPublicKey (publicKey : string) : string :=
  Js.substring0 40 (Keccak.keccak256_bytes (Hex.from publicKey)).

Definition encryptWithAES (data : string) (key : list byte) : M (string * string * string) :=
  iv ← randomBytes 12;
  '(ciphertext, authTag) ← lift (aes256gcm_encrypt key iv (Js.utf8 data));
  mret (Hex.toString ciphertext, Hex.toString iv, Hex.toString authTag).

Definition decryptWithAES (ciphertext : string) (key : list byte) (iv authTag : string)
  : result string :=
  plaintext ← aes256gcm_decrypt key (Hex.from iv) (Hex.from authTag) (Hex.from ciphertext);
  mret (Js.fromUtf8 plaintext).

Definition encryptDEKForParty (dek : list byte) (partyPublicKey : string)
    (ephemeralPrivateKey : option string) : M string :=
  ephemeral ← match ephemeralPrivateKey with
              | None | Some EmptyString => genKeyPair
              | Some k => lift (ec_keyFromPrivate k)
              end;
  partyKey ← lift (ec_keyFromPublic partyPublicKey);
  sharedSecret ← lift (ec_derive ephemeral partyKey);
  let encryptionKey := sha256 sharedSecret in
  '(ciphertext, iv, authTag) ← encryptWithAES (Hex.toString dek) encryptionKey;
  let ephemeralPub := ec_encodePoint (ec_getPublic ephemeral) in
  mret (JSON_stringify (wrappedKey ephemeralPub ciphertext iv authTag)).

Definition decryptDEKWithPrivateKey (encryptedDekJson : string) (privateKey : string)
  : result (list byte) :=
  parsed ← JSON_parse encryptedDekJson;
  _ ← match parsed with
      | VNull => Throw "Cannot destructure property 'ephemeralPublicKey' of null"
      | _ => Ok ()
      end;
  partyKey ← ec_keyFromPrivate privateKey;
  ephemeralPublicKey ← asString (property parsed "ephemeralPublicKey");
  ephemeralKey ← ec_keyFromPublic ephemeralPublicKey;
  sharedSecret ← ec_derive partyKey ephemeralKey;
  let decryptionKey := sha256 sharedSecret in
  encryptedDek ← asString (property parsed "encryptedDek");
  iv ← asString (property parsed "iv");
  authTag ← asString (property parsed "authTag");
  dekHex ← decryptWithAES encryptedDek decryptionKey iv authTag;
  mret (Hex.from dekHex).

Definition createEncryptedEnvelope (data : Value) (partyPublicKeys : list string)
  : M EncryptedEnvelope :=
  dek ← generateDEK;
  let jsonData := JSON_stringify data in
  '(ciphertext, iv, authTag) ← encryptWithAES jsonData dek;
  encryptedKeys ← foldM (fun (encryptedKeys : gmap string string) pubKey =>
                           let keyHash := hashPublicKey pubKey in
                           wrapped ← encryptDEKForParty dek pubKey None;
                           mret (<[keyHash := wrapped]> encryptedKeys))
                        ∅ partyPublicKeys;
  mret {| encryptedData := ciphertext; iv := iv; authTag := authTag;
          encryptedKeys := encryptedKeys |}.

(** The body of the [try] block of [decryptEnvelope]. A missing entry and an
    empty string both fail the [!encryptedDek] test. *)
Definition decryptEnvelope_try (envelope : EncryptedEnvelope) (privateKey publicKey : string)
  : result DecryptionResult :=
  let keyHash := hashPublicKey publicKey in
  match encryptedKeys envelope !! keyHash with
  | None | Some EmptyString =>
      Ok {| success := false; data := None;
            error := Some "Not authorized to decrypt this data" |}
  | Some encryptedDek =>
      dek ← decryptDEKWithPrivateKey encryptedDek privateKey;
      jsonData ← decryptWithAES (encryptedData envelope) dek (iv envelope) (authTag envelope);
      parsed ← JSON_parse jsonData;
      mret {| success := true; data := Some parsed; error := None |}
  end.

Definition decryptEnvelope (envelope : EncryptedEnvelope) (privateKey publicKey : string)
  : result DecryptionResult :=
  try_catch (decryptEnvelope_try envelope privateKey publicKey)
    (fun message => Ok {| success := false; data := None; error := Some message |}).

(** [nonce || crypto.randomBytes(32).toString('hex')]: an absent nonce and
    the empty string both draw a fresh one. *)
Definition generateCommitment (data : Value) (nonce : option string) : M Commitment :=
  txNonce ← match nonce with
            | None | Some EmptyString => bytes ← randomBytes 32; mret (Hex.toString bytes)
            | Some n => mret n
            end;
  let dataString := JSON_stringify data +:+ txNonce in
  let commitment := "0x" +:+ Keccak.keccak256 dataString in
  mret {| commitment := commitment; nonce := txNonce |}.

Definition verifyCommitment (data : Value) (nonce : string) (expectedCommitment : string)
  : M bool :=
  c ← generateCommitment data (Some nonce);
  mret (String.eqb (Js.toLowerCase (commitment c)) (Js.toLowerCase expectedCommitment)).



(** The leaf digest of one field: the hash of [`${key}:${JSON.stringify(value)}`]. *)
Definition leafHash (key : string) (value : Value) : string :=
  Keccak.keccak256 (key +:+ ":" +:+ JSON_stringify value).

(** The leaf digests of a field map, in enumeration order. *)
Definition leafDigests (fields : list (string * Value)) : list string :=
  map (fun '(key, value) => leafHash key value) fields.

(** The entries of the [leaves] object of a field map. *)
Definition leafEntries (fields : list (string * Value)) : list (string * string) :=
  map (fun '(key, value) => (key, leafHash key value)) fields.

(** [fields] is [Object.entries(fields)], in enumeration order. The digest
    of every field is pushed to [hashes]; [leaves[key] = leafHash] stores it
    under every key but [__proto__]. *)
Definition buildMerkleTree (fields : list (string * Value)) : MerkleTree :=
  let '(leaves, hashes) :=
    fold_left (fun '(leaves, hashes) '(key, value) =>
                 let leafHash := leafHash key value in
                 (Js.assign key leafHash leaves, hashes ++ [leafHash]))
              fields ([], []) in
  if (length hashes =? 0)%nat then
    {| root := Keccak.keccak256 EmptyString; leaves := leaves |}
  else
    let sorted := Js.sort hashes in
    let root := Keccak.keccak256 (Js.join sorted) in
    {| root := "0x" +:+ root; leaves := leaves |}.

(** The array [proofHashes] of [generateMerkleProof] after both loops,
    before it is sorted. [allFields[fieldName]] and [leaves[fieldName]] also
    find what the two objects inherit, so a name such as [constructor]
    passes the test [!== undefined] and pushes the inherited member. *)
Definition collectProofHashes (allFields : list (string * Value))
    (disclosedFieldNames : list string) (leaves : list (string * string))
  : list (Js.Any string) :=
  let proofHashes :=
    fold_left (fun proofHashes fieldName =>
                 match Js.get fieldName allFields with
                 | Js.Undefined => proofHashes
                 | _ => proofHashes ++ [Js.get fieldName leaves]
                 end)
              disclosedFieldNames [] in
  fold_left (fun proofHashes '(key, hash) =>
               if negb (Js.includes key disclosedFieldNames)
               then proofHashes ++ [Js.Data hash] else proofHashes)
            leaves proofHashes.

(** What the setter of the inherited accessor [__proto__] does with an
    assigned value: a primitive is ignored ([None]); [null] and objects
    become the prototype, and the boolean tells whether the accessor is
    still inherited afterwards. It is not once the prototype is [null] or
    an object with an own property of that name. *)
Definition prototypeSetter (x : Js.Any Value) : option bool :=
  match x with
  | Js.Data VNull => Some false
  | Js.Data (VObject fields) =>
      Some match Js.obj_get "__proto__" fields with
           | Some _ => false
           | None => true
           end
  | Js.Data (VArray _) | Js.ObjectPrototype | Js.Builtin _ => Some true
  | Js.Data (VBool _) | Js.Data (VNumber _) | Js.Data (VString _) | Js.Undefined => None
  end.

(** [disclosedFields[fieldName] = x]. The state is the list of own
    properties and whether the accessor [__proto__] is still inherited:
    while it is, assigning to [__proto__] makes no property. *)
Definition assignDisclosed (fieldName : string) (x : Js.Any Value)
    (disclosedFields : list (string * Js.Any Value) * bool)
  : list (string * Js.Any Value) * bool :=
  let '(own, inherited) := disclosedFields in
  if String.eqb fieldName "__proto__" && inherited then
    match prototypeSetter x with
    | Some inherited' => (own, inherited')
    | None => (own, inherited)
    end
  else (Js.define fieldName x own, inherited).

(** The first loop of [generateMerkleProof], as far as it fills
    [disclosedFields]. *)
Definition collectDisclosedFields (allFields : list (string * Value))
    (disclosedFieldNames : list string) : list (string * Js.Any Value) :=
  fst (fold_left (fun disclosedFields fieldName =>
                    match Js.get fieldName allFields with
                    | Js.Undefined => disclosedFields
                    | x => assignDisclosed fieldName x disclosedFields
                    end)
                 disclosedFieldNames ([], true)).

(** The digests of the disclosed names that are fields, one per occurrence
    of the name, and the digests of the fields that are not disclosed. *)
Definition disclosedDigests (allFields : list (string * Value))
    (disclosedFieldNames : list string) : list string :=
  flat_map (fun name => match Js.obj_get name allFields with
                        | Some v => [leafHash name v]
                        | None => []
                        end) disclosedFieldNames.

Definition hiddenDigests (allFields : list (string * Value))
    (disclosedFieldNames : list string) : list string :=
  leafDigests (List.filter (fun '(key, _) => negb (Js.includes key disclosedFieldNames))
                 allFields).

(** [proofHashes] after [proofHashes.sort()]. *)
Definition proofHashesOf (allFields : list (string * Value))
    (disclosedFieldNames : list string) : list (Js.Any string) :=
  Js.sortAny (collectProofHashes allFields disclosedFieldNames
                (leaves (buildMerkleTree allFields))).

(** An element of [proofHashes] as [JSON.stringify] writes it: a function
    or [undefined] inside an array is written [null], and
    [Object.prototype], which has no enumerable property, is written [{}]. *)
Definition proofElement (x : Js.Any string) : Value :=
  match x with
  | Js.Data s => VString s
  | Js.ObjectPrototype => VObject []
  | Js.Builtin _ | Js.Undefined => VNull
  end.

Definition generateMerkleProof (allFields : list (string * Value))
    (disclosedFieldNames : list string) : DisclosureProof :=
  {| disclosedFields := collectDisclosedFields allFields disclosedFieldNames;
     proof := JSON_stringify
                (VArray (proofElement <$> proofHashesOf allFields disclosedFieldNames)) |}.

End Encryption.

(** ** A reader and writer of JSON text

    An executable instance of the [JSON] interface: compact JSON text (no
    insignificant white space) over 8-bit strings and integer numbers. It
    is used to run the model on concrete inputs; the theorems hold for every
    instance. *)

Module JsonText.

Definition dquote : ascii := ascii_of_N 34.
Definition backslash : ascii := ascii_of_N 92.

Definition escapeChar (c : ascii) : string :=
  let n := N_of_ascii c in
  if n =? 34 then String backslash (String dquote EmptyString)
  else if n =? 92 then String backslash (String backslash EmptyString)
  else if n =? 8 then "\b"
  else if n =? 12 then "\f"
  else if n =? 10 then "\n"
  else if n =? 13 then "\r"
  else if n =? 9 then "\t"
  else if n <? 32 then
    "\u00" +:+ String (Hex.hexDigit (n / 16)) (String (Hex.hexDigit (n mod 16)) EmptyString)
  else String c EmptyString.

Fixpoint escape (s : string) : string :=
  match s with
  | EmptyString => EmptyString
  | String c s' => escapeChar c +:+ escape s'
  end.

Definition quote (s : string) : string :=
  String dquote (escape s +:+ String dquote EmptyString).

Fixpoint stringify (v : Value) : string :=
  match v with
  | VNull => "null"
  | VBool true => "true"
  | VBool false => "false"
  | VNumber n => Js.decimal n
  | VString s => quote s
  | VArray items => "[" +:+ Js.joinWith "," (map stringify items) +:+ "]"
  | VObject fields =>
      "{" +:+ Js.joinWith "," (map (fun '(k, v) => quote k +:+ ":" +:+ stringify v) fields) +:+ "}"
  end.

(** The characters of a string literal after its opening quote, up to the
    closing quote. *)
Fixpoint parseStringBody (s : string) : option (string * string) :=
  match s with
  | EmptyString => None
  | String c s' =>
      if Ascii.eqb c dquote then Some (EmptyString, s')
      else if Ascii.eqb c backslash then
        match s' with
        | String e s'' =>
            let plain (x : ascii) :=
              match parseStringBody s'' with
              | Some (str, rest) => Some (String x str, rest)
              | None => None
              end in
            if Ascii.eqb e dquote then plain dquote
            else if Ascii.eqb e backslash then plain backslash
            else if Ascii.eqb e "/" then plain "/"%char
            else if Ascii.eqb e "b" then plain (ascii_of_N 8)
            else if Ascii.eqb e "f" then plain (ascii_of_N 12)
            else if Ascii.eqb e "n" then plain (ascii_of_N 10)
            else if Ascii.eqb e "r" then plain (ascii_of_N 13)
            else if Ascii.eqb e "t" then plain (ascii_of_N 9)
            else if Ascii.eqb e "u" then
              match s'' with
              | String "0" (String "0" (String h (String l s3))) =>
                  match Hex.hexValue h, Hex.hexValue l, parseStringBody s3 with
                  | Some hv, Some lv, Some (str, rest) =>
                      Some (String (ascii_of_N (16 * hv + lv)) str, rest)
                  | _, _, _ => None
                  end
              | _ => None
              end
            else None
        | EmptyString => None
        end
      else if N_of_ascii c <? 32 then None
      else
        match parseStringBody s' with
        | Some (str, rest) => Some (String c str, rest)
        | None => None
        end
  end.

Definition isDigit (c : ascii) : bool :=
  let n := N_of_ascii c in (48 <=? n) && (n <=? 57).

Fixpoint spanDigits (s : string) : string * string :=
  match s with
  | String c s' =>
      if isDigit c then let '(ds, rest) := spanDigits s' in (String c ds, rest)
      else (EmptyString, s)
  | EmptyString => (EmptyString, EmptyString)
  end.

Definition parseNumber (s : string) : option (Value * string) :=
  let '(sign, body) :=
    match s with
    | String "-" s' => ("-", s')
    | _ => (EmptyString, s)
    end in
  match spanDigits body with
  | (EmptyString, _) => None
  | (ds, rest) =>
      match NilZero.int_of_string (sign +:+ ds) with
      | Some i => Some (VNumber (Z.of_int i), rest)
      | None => None
      end
  end.

Definition expect (word : string) (v : Value) (s : string) : option (Value * string) :=
  if String.prefix word s
  then Some (v, String.substring (String.length word) (String.length s - String.length word) s)
  else None.

Fixpoint parseValue (fuel : nat) (s : string) : option (Value * string) :=
  match fuel with
  | O => None
  | S fuel' =>
      match s with
      | EmptyString => None
      | String c s' =>
          if Ascii.eqb c dquote then
            match parseStringBody s' with
            | Some (str, rest) => Some (VString str, rest)
            | None => None
            end
          else if Ascii.eqb c "[" then
            match s' with
            | String "]" rest => Some (VArray [], rest)
            | _ =>
                match parseItems fuel' s' with
                | Some (items, rest) => Some (VArray items, rest)
                | None => None
                end
            end
          else if Ascii.eqb c "{" then
            match s' with
            | String "}" rest => Some (VObject [], rest)
            | _ =>
                match parseMembers fuel' s' with
                | Some (members, rest) =>
                    Some (VObject (fold_left (fun o '(k, v) => Js.obj_set k v o) members []), rest)
                | None => None
                end
            end
          else if Ascii.eqb c "n" then expect "null" VNull s
          else if Ascii.eqb c "t" then expect "true" (VBool true) s
          else if Ascii.eqb c "f" then expect "false" (VBool false) s
          else parseNumber s
      end
  end
with parseItems (fuel : nat) (s : string) : option (list Value * string) :=
  match fuel with
  | O => None
  | S fuel' =>
      match parseValue fuel' s with
      | Some (v, String "," rest) =>
          match parseItems fuel' rest with
          | Some (items, rest') => Some (v :: items, rest')
          | None => None
          end
      | Some (v, String "]" rest) => Some ([v], rest)
      | _ => None
      end
  end
with parseMembers (fuel : nat) (s : string) : option (list (string * Value) * string) :=
  match fuel with
  | O => None
  | S fuel' =>
      match s with
      | String c s' =>
          if Ascii.eqb c dquote then
            match parseStringBody s' with
            | Some (k, String ":" s'') =>
                match parseValue fuel' s'' with
                | Some (v, String "," rest) =>
                    match parseMembers fuel' rest with
                    | Some (members, rest') => Some ((k, v) :: members, rest')
                    | None => None
                    end
                | Some (v, String "}" rest) => Some ([(k, v)], rest)
                | _ => None
                end
            | _ => None
            end
          else None
      | EmptyString => None
      end
  end.

(** A character that a string literal holds as it is. *)
Definition plainChar (c : ascii) : bool :=
  negb (Ascii.eqb c dquote) && negb (Ascii.eqb c backslash) && (32 <=? N_of_ascii c).

Definition parse (s : string) : result Value :=
  match parseValue (S (String.length s)) s with
  | Some (v, EmptyString) => Ok v
  | _ => Throw "Unexpected token in JSON"
  end.

End JsonText.

#[global] Instance jsonText : Json := {|
  JSON_stringify := JsonText.stringify;
  JSON_parse := JsonText.parse
|}.

(** ** Small instances of [crypto] and [elliptic]

    Executable stand-ins with the functional behaviour of the libraries and
    no security: the cipher reverses the data and tags it with key and iv;
    the group is the integers modulo 256 under addition with generator 3.
    They are used to run the model on concrete inputs. *)

Module Toy.

Fixpoint bytes_eqb (a b : list byte) : bool :=
  match a, b with
  | [], [] => true
  | x :: a', y :: b' => Byte.eqb x y && bytes_eqb a' b'
  | _, _ => false
  end.

Definition tagOf (key iv ciphertext : list byte) : list byte :=
  firstn 16 (key ++ iv ++ ciphertext ++ repeat x00 16).

Definition encrypt (key iv plaintext : list byte) : result (list byte * list byte) :=
  if (length key =? 32)%nat then
    let ciphertext := rev plaintext in
    Ok (ciphertext, tagOf key iv ciphertext)
  else Throw "Invalid key length".

Definition decrypt (key iv authTag ciphertext : list byte) : result (list byte) :=
  if (length key =? 32)%nat then
    if bytes_eqb authTag (tagOf key iv ciphertext) then Ok (rev ciphertext)
    else Throw "Unsupported state or unable to authenticate data"
  else Throw "Invalid key length".

Definition hash32 (m : list byte) : list byte := firstn 32 (m ++ repeat x00 32).

Definition scalarMul (k : byte) (p : byte) : byte :=
  Hex.byteOfN (Byte.to_N k * Byte.to_N p).

Definition generator : byte := x03.

Definition keyFromHex (what : string) (s : string) : result byte :=
  match Hex.from s with
  | [b] => Ok b
  | _ => Throw what
  end.

Definition sign (k : byte) (hash : string) : result string :=
  Ok (Hex.toString [scalarMul k generator] +:+ hash).

Definition verify (p : byte) (hash signature : string) : result bool :=
  Ok (String.eqb signature (Hex.toString [p] +:+ hash)).

End Toy.

#[global] Instance toyCrypto : NodeCrypto := {|
  aes256gcm_encrypt := Toy.encrypt;
  aes256gcm_decrypt := Toy.decrypt;
  sha256 := Toy.hash32
|}.

#[global] Instance toyElliptic : Elliptic := {|
  PrivateKey := byte;
  Point := byte;
  ec_genKeyPair := fun e => (e O, fun i => e (S i));
  ec_keyFromPrivate := Toy.keyFromHex "Invalid private key";
  ec_keyFromPublic := Toy.keyFromHex "Unknown point format";
  ec_validate := fun _ => true;
  ec_getPrivateHex := fun k => Hex.toString [k];
  ec_getPublic := fun k => Toy.scalarMul k Toy.generator;
  ec_encodePoint := fun p => Hex.toString [p];
  ec_derive := fun k p => Ok [Toy.scalarMul k p];
  ec_sign := Toy.sign;
  ec_verify := Toy.verify
|}.

(** ** [hash.js] and [hmac-drbg]: SHA-256, HMAC and the deterministic generator

    [elliptic] draws the signing nonce from an HMAC-DRBG over SHA-256 that is
    seeded with the private key and the message (RFC 6979). *)

Module Sha256.

Definition mask32 : N := 4294967295.

Definition add32 (a b : N) : N := N.land (a + b) mask32.

Definition rotr (x n : N) : N :=
  N.lor (N.shiftr x n) (N.land (N.shiftl x (32 - n)) mask32).

Definition primes : list N :=
  [2; 3; 5; 7; 11; 13; 17; 19; 23; 29; 31; 37; 41; 43; 47; 53; 59; 61; 67; 71; 73; 79; 83;
   89; 97; 101; 103; 107; 109; 113; 127; 131; 137; 139; 149; 151; 157; 163; 167; 173; 179;
   181; 191; 193; 197; 199; 211; 223; 227; 229; 233; 239; 241; 251; 257; 263; 269; 271; 277;
   281; 283; 293; 307; 311].

(** The integer cube root of a number below 2^105, bit by bit. *)
Definition cubeRoot (x : N) : N :=
  fold_left (fun r i =>
               let r' := r + N.shiftl 1 (N.of_nat (34 - i)) in
               if r' * r' * r' <=? x then r' else r)
            (seq 0 35) 0.

(** The round constants are the first 32 bits of the fractional parts of
    the cube roots of the first 64 primes, and the initial state those of
    the square roots of the first 8. *)
Definition roundConstants : list N :=
  Eval vm_compute in map (fun q => N.land (cubeRoot (N.shiftl q 96)) mask32) primes.

Definition initialState : list N :=
  Eval vm_compute in map (fun q => N.land (N.sqrt (N.shiftl q 64)) mask32) (firstn 8 primes).

Definition ch (x y z : N) : N := N.lxor (N.land x y) (N.land (N.lxor x mask32) z).
Definition maj (x y z : N) : N := N.lxor (N.lxor (N.land x y) (N.land x z)) (N.land y z).
Definition bigSigma0 (x : N) : N := N.lxor (N.lxor (rotr x 2) (rotr x 13)) (rotr x 22).
Definition bigSigma1 (x : N) : N := N.lxor (N.lxor (rotr x 6) (rotr x 11)) (rotr x 25).
Definition smallSigma0 (x : N) : N := N.lxor (N.lxor (rotr x 7) (rotr x 18)) (N.shiftr x 3).
Definition smallSigma1 (x : N) : N := N.lxor (N.lxor (rotr x 17) (rotr x 19)) (N.shiftr x 10).

(** The message schedule: [w] holds the words computed so far. *)
Fixpoint schedule (more : nat) (w : list N) : list N :=
  match more with
  | O => w
  | S more' =>
      let t := length w in
      let word i := nth (t - i) w 0 in
      schedule more'
        (w ++ [add32 (add32 (smallSigma1 (word 2%nat)) (word 7%nat))
                     (add32 (smallSigma0 (word 15%nat)) (word 16%nat))])
  end.

Definition step (st : list N) (kw : N * N) : list N :=
  match st with
  | [a; b; c; d; e; f; g; h] =>
      let t1 := add32 (add32 (add32 h (bigSigma1 e)) (add32 (ch e f g) (fst kw))) (snd kw) in
      let t2 := add32 (bigSigma0 a) (maj a b c) in
      [add32 t1 t2; a; b; c; add32 d t1; e; f; g]
  | _ => st
  end.

Fixpoint wordsOfBytes (bs : list N) : list N :=
  match bs with
  | b0 :: b1 :: b2 :: b3 :: bs' =>
      (b0 * 16777216 + b1 * 65536 + b2 * 256 + b3) :: wordsOfBytes bs'
  | _ => []
  end.

Definition compress (st : list N) (block : list N) : list N :=
  let w := schedule 48 (wordsOfBytes block) in
  let st' := fold_left step (combine roundConstants w) st in
  map (fun '(x, y) => add32 x y) (combine st st').

Definition bytesOfWord (n : nat) (w : N) : list N :=
  map (fun i => N.land (N.shiftr w (8 * N.of_nat (n - 1 - i))) 255) (seq 0 n).

Definition pad (msg : list N) : list N :=
  let len := length msg in
  let zeros := ((64 - (len + 9) mod 64) mod 64)%nat in
  msg ++ [128] ++ repeat 0 zeros ++ bytesOfWord 8 (8 * N.of_nat len).

Fixpoint absorb (fuel : nat) (st : list N) (bs : list N) : list N :=
  match fuel, bs with
  | S fuel', _ :: _ => absorb fuel' (compress st (firstn 64 bs)) (skipn 64 bs)
  | _, _ => st
  end.

Definition digest (msg : list byte) : list byte :=
  let bs := pad (map Byte.to_N msg) in
  let st := absorb (length bs) initialState bs in
  map Hex.byteOfN (flat_map (bytesOfWord 4) st).

End Sha256.

Module HmacDrbg.

Definition xorPad (c : N) (key : list byte) : list byte :=
  map (fun b => Hex.byteOfN (N.lxor (Byte.to_N b) c)) key.

(** [hash.hmac(hash.sha256, key).update(msg).digest()] *)
Definition hmac (key msg : list byte) : list byte :=
  let key := if (64 <? length key)%nat then Sha256.digest key else key in
  let key := key ++ repeat x00 (64 - length key) in
  Sha256.digest (xorPad 92 key ++ Sha256.digest (xorPad 54 key ++ msg)).

(** The state [K], [V] of the generator. *)
Definition State : Type := list byte * list byte.

(** [_update(seed)]; the second half is skipped when there is no seed. *)
Definition update (seed : option (list byte)) (st : State) : State :=
  let '(K, V) := st in
  let K := hmac K (V ++ [x00] ++ match seed with Some s => s | None => [] end) in
  let V := hmac K V in
  match seed with
  | None => (K, V)
  | Some s =>
      let K := hmac K (V ++ [x01] ++ s) in
      (K, hmac K V)
  end.

(** [new HmacDRBG({ entropy, nonce })] *)
Definition init (entropy nonce : list byte) : State :=
  update (Some (entropy ++ nonce)) (repeat x00 32, repeat x01 32).

(** [generate(32)]: one block of output, then an update without seed. *)
Definition generate (st : State) : list byte * State :=
  let '(K, V) := st in
  let V := hmac K V in
  (V, update None (K, V)).

End HmacDrbg.

Example sha256_abc :
  Hex.toString (Sha256.digest (Js.utf8 "abc"))
  = "ba7816bf8f01cfea414140de5dae2223b00361a396177a9cb410ff61f20015ad".
Proof. vm_compute. reflexivity. Qed.

Example hmac_sha256_rfc4231 :
  Hex.toString (HmacDrbg.hmac (repeat x0b 20) (Js.utf8 "Hi There"))
  = "b0344c61d8db38535ca8afceaf0bf12b881dc200c9833da726e9376c2e32cff7".
Proof. vm_compute. reflexivity. Qed.

(** ** [elliptic]: ECDSA and Diffie-Hellman on secp256k1

    The curve y^2 = x^3 + 7 over the prime field of [p], with the generator
    [G] of prime order [n]. Field arithmetic runs on the machine-word
    integers of Bignums, as [bn.js] runs it on words. *)

Module Secp256k1.

Local Open Scope Z_scope.

Definition p : Z := 0xFFFFFFFFFFFFFFFFFFFFFFFFFFFFFFFFFFFFFFFFFFFFFFFFFFFFFFFEFFFFFC2F.
Definition n : Z := 0xFFFFFFFFFFFFFFFFFFFFFFFFFFFFFFFEBAAEDCE6AF48A03BBFD25E8CD0364141.
Definition Gx : Z := 0x79BE667EF9DCBBAC55A06295CE870B07029BFCDB2DCE28D959F2815B16F81798.
Definition Gy : Z := 0x483ADA7726A3C4655DA4FBFC0E1108A8FD17B448A68554199C47D08FFB10D4B8.

(** *** Modular arithmetic *)

Definition mulmod (m : BigZ.t) (a b : BigZ.t) : BigZ.t := BigZ.modulo (BigZ.mul a b) m.

Fixpoint powmod (m : BigZ.t) (b : BigZ.t) (e : positive) : BigZ.t :=
  match e with
  | xH => BigZ.modulo b m
  | xO e' => let t := powmod m b e' in mulmod m t t
  | xI e' => let t := powmod m b e' in mulmod m (mulmod m t t) b
  end.

(** The inverse modulo a prime [m], by Fermat's theorem; 0 for 0. *)
Definition invmod (m : Z) (a : Z) : Z :=
  match m - 2 with
  | Zpos e => BigZ.to_Z (powmod (BigZ.of_Z m) (BigZ.of_Z a) e)
  | _ => 0
  end.

(** *** Points

    A point is given in affine coordinates; [None] is the point at
    infinity. Multiples are computed in Jacobian coordinates. *)

Definition Point : Type := option (Z * Z).

Definition G : Point := Some (Gx, Gy).


Definition Jacobian : Type := BigZ.t * BigZ.t * BigZ.t.

Definition bp : BigZ.t := BigZ.of_Z p.
Definition fmul (a b : BigZ.t) : BigZ.t := mulmod bp a b.
Definition fsub (a b : BigZ.t) : BigZ.t := BigZ.modulo (BigZ.sub a b) bp.
Definition fadd (a b : BigZ.t) : BigZ.t := BigZ.modulo (BigZ.add a b) bp.
Definition fsmall (c : Z) (a : BigZ.t) : BigZ.t := fmul (BigZ.of_Z c) a.

Definition infinity : Jacobian := (BigZ.zero, BigZ.one, BigZ.zero).

Definition toJacobian (P : Point) : Jacobian :=
  match P with
  | None => infinity
  | Some (x, y) => (BigZ.of_Z (x mod p), BigZ.of_Z (y mod p), BigZ.one)
  end.

Definition toAffine (P : Jacobian) : Point :=
  let '(x, y, z) := P in
  if BigZ.eqb z BigZ.zero then None
  else
    let zi := BigZ.of_Z (invmod p (BigZ.to_Z z)) in
    let zi2 := fmul zi zi in
    Some (BigZ.to_Z (fmul x zi2), BigZ.to_Z (fmul (fmul y zi2) zi)).

Definition jdouble (P : Jacobian) : Jacobian :=
  let '(x, y, z) := P in
  if BigZ.eqb z BigZ.zero || BigZ.eqb y BigZ.zero then infinity
  else
    let a := fmul x x in
    let b := fmul y y in
    let c := fmul b b in
    let xb := fadd x b in
    let d := fsmall 2 (fsub (fsub (fmul xb xb) a) c) in
    let e := fsmall 3 a in
    let x3 := fsub (fmul e e) (fsmall 2 d) in
    let y3 := fsub (fmul e (fsub d x3)) (fsmall 8 c) in
    let z3 := fsmall 2 (fmul y z) in
    (x3, y3, z3).

Definition jadd (P Q : Jacobian) : Jacobian :=
  let '(x1, y1, z1) := P in
  let '(x2, y2, z2) := Q in
  if BigZ.eqb z1 BigZ.zero then Q
  else if BigZ.eqb z2 BigZ.zero then P
  else
    let z1z1 := fmul z1 z1 in
    let z2z2 := fmul z2 z2 in
    let u1 := fmul x1 z2z2 in
    let u2 := fmul x2 z1z1 in
    let s1 := fmul (fmul y1 z2) z2z2 in
    let s2 := fmul (fmul y2 z1) z1z1 in
    if BigZ.eqb u1 u2 then
      if BigZ.eqb s1 s2 then jdouble P else infinity
    else
      let h := fsub u2 u1 in
      let r := fsub s2 s1 in
      let hh := fmul h h in
      let hhh := fmul h hh in
      let v := fmul u1 hh in
      let x3 := fsub (fsub (fmul r r) hhh) (fsmall 2 v) in
      let y3 := fsub (fmul r (fsub v x3)) (fmul s1 hhh) in
      let z3 := fmul (fmul h z1) z2 in
      (x3, y3, z3).

Fixpoint jmul (k : positive) (P : Jacobian) : Jacobian :=
  match k with
  | xH => P
  | xO k' => jdouble (jmul k' P)
  | xI k' => jadd (jdouble (jmul k' P)) P
  end.

(** [P.mul(k)] for a scalar [k] that is not negative. *)
Definition mul (k : Z) (P : Point) : Point :=
  match k with
  | Zpos k' => toAffine (jmul k' (toJacobian P))
  | _ => None
  end.

(** [G.mulAdd(k1, P, k2)], the point [k1 G + k2 P]. *)
Definition mulAdd (k1 : Z) (P : Point) (k2 : Z) : Point :=
  let term k Q := match k with
                  | Zpos k' => jmul k' (toJacobian Q)
                  | _ => infinity
                  end in
  toAffine (jadd (term k1 G) (term k2 P)).

(** *** Numbers, bytes and text *)

(** [new BN(bytes)]: big-endian. *)
Definition ofBytes (bs : list byte) : Z :=
  fold_left (fun acc b => 256 * acc + Z.of_N (Byte.to_N b)) bs 0.

(** [x.toArray('be', len)] for [x] below 256^len. *)
Definition toBytes (len : nat) (x : Z) : list byte :=
  map (fun i => Hex.byteOfN (Z.to_N (Z.shiftr x (8 * Z.of_nat (len - 1 - i))))) (seq 0 len).

(** [x.byteLength()] *)
Definition byteLength (x : Z) : nat := Z.to_nat ((Z.log2 x + 8) / 8).

(** [x.toArray()]: as many bytes as the number needs, one for zero. *)
Definition toArray (x : Z) : list byte :=
  if x =? 0 then [x00] else toBytes (byteLength x) x.

(** A hexadecimal digit as [bn.js] reads it; a character that is no digit
    is read as its code minus 48, masked to four bits. *)
Definition digitOfChar (c : ascii) : Z :=
  let code := Z.of_N (N_of_ascii c) in
  if (65 <=? code) && (code <=? 70) then code - 55
  else if (97 <=? code) && (code <=? 102) then code - 87
  else Z.land (code - 48) 15.

Definition isSpace (c : ascii) : bool :=
  let code := N_of_ascii c in
  ((9 <=? code) && (code <=? 13) || (code =? 32))%N.

Fixpoint digits (s : string) (acc : Z) : Z :=
  match s with
  | EmptyString => acc
  | String c s' => if isSpace c then digits s' acc else digits s' (16 * acc + digitOfChar c)
  end.

Fixpoint dropSpaces (s : string) : string :=
  match s with
  | String c s' => if isSpace c then dropSpaces s' else s
  | EmptyString => EmptyString
  end.

(** [new BN(s, 16)]: white space is dropped and a leading minus sign
    negates. *)
Definition ofHex (s : string) : Z :=
  match dropSpaces s with
  | String "-" s' => - digits s' 0
  | s' => digits s' 0
  end.

(** [utils.toArray(s, 'hex')]: every character that is neither a letter nor
    a digit is dropped, a text of odd length gets a leading 0, and each pair
    is read with [parseInt(pair, 16)], which gives [NaN], here [None], for a
    pair that does not begin with a hexadecimal digit. *)
Definition isAlphanumeric (c : ascii) : bool :=
  let code := N_of_ascii c in
  ((48 <=? code) && (code <=? 57) || (65 <=? code) && (code <=? 90)
   || (97 <=? code) && (code <=? 122))%N.

Fixpoint alphanumerics (s : string) : list ascii :=
  match s with
  | EmptyString => []
  | String c s' => if isAlphanumeric c then c :: alphanumerics s' else alphanumerics s'
  end.

Definition parseIntPair (hi lo : ascii) : option N :=
  match Hex.hexValue hi, Hex.hexValue lo with
  | Some h, Some l => Some (16 * h + l)%N
  | Some h, None =>
      if Ascii.eqb hi "0" && (Ascii.eqb lo "x" || Ascii.eqb lo "X") then None else Some h
  | None, _ => None
  end.

Fixpoint pairs (cs : list ascii) : list (option N) :=
  match cs with
  | hi :: lo :: cs' => parseIntPair hi lo :: pairs cs'
  | _ => []
  end.

Definition arrayOfHex (s : string) : list (option N) :=
  let cs := alphanumerics s in
  pairs (if Nat.odd (length cs) then "0"%char :: cs else cs).

(** [new BN(array)]: an entry that is [NaN] counts as 0. *)
Definition ofArray (bs : list (option N)) : Z :=
  fold_left (fun acc b => 256 * acc + Z.of_N (default 0%N b)) bs 0.

(** [utils.encode(bytes, 'hex')] of a number in [len] bytes. *)
Definition hexOf (len : nat) (x : Z) : string := Hex.toString (toBytes len x).

(** *** Keys *)





(** [point.encode('hex')]: the uncompressed form. *)
Definition encodePoint (P : Point) : string :=
  match P with
  | Some (x, y) => "04" +:+ hexOf 32 x +:+ hexOf 32 y
  | None => EmptyString
  end.



(** [ec.genKeyPair()]: a generator seeded with 192 random bytes and the
    bytes of [n] gives candidates of 32 bytes until one is at most
    [n - 2]; the key is the candidate plus one. *)
Fixpoint firstKey (fuel : nat) (st : HmacDrbg.State) : Z :=
  let '(bytes, st') := HmacDrbg.generate st in
  let candidate := ofBytes bytes in
  match fuel with
  | S fuel' => if n - 2 <? candidate then firstKey fuel' st' else candidate + 1
  | O => candidate mod (n - 1) + 1
  end.

Definition genKeyPair (e : Entropy) : Z * Entropy :=
  let entropy := map e (seq 0 192) in
  (firstKey 64 (HmacDrbg.init entropy (toBytes 32 n)), fun i => e (192 + i)%nat).

(** *** Signatures *)

(** [ec._truncateToN(msg, truncOnly)] *)
Definition truncateToN (msg : Z) (truncOnly : bool) : Z :=
  let delta := 8 * Z.of_nat (byteLength msg) - 256 in
  let msg := if 0 <? delta then Z.shiftr msg delta else msg in
  if negb truncOnly && (n <=? msg) then msg - n else msg.

(** One integer of a DER signature: a leading zero byte when the first bit
    is set. *)
Definition derInteger (x : Z) : list byte :=
  let bytes := toArray x in
  let bytes := match bytes with
               | b :: _ => if (128 <=? Byte.to_N b)%N then x00 :: bytes else bytes
               | [] => bytes
               end in
  [x02; Hex.byteOfN (N.of_nat (length bytes))] ++ bytes.

(** [signature.toDER('hex')] *)
Definition toDER (r s : Z) : string :=
  let body := derInteger r ++ derInteger s in
  Hex.toString ([x30; Hex.byteOfN (N.of_nat (length body))] ++ body).

(** One turn of the nonce loop of [ec.sign]: the signature that the
    candidate [k] gives, or [None] when the loop continues. *)
Definition signAttempt (k priv msg : Z) : option string :=
  if (k <=? 1) || (n - 1 <=? k) then None
  else
    match mul k G with
    | None => None
    | Some (x, _) =>
        let r := x mod n in
        if r =? 0 then None
        else
          let s := (invmod n k * (r * priv + msg)) mod n in
          if s =? 0 then None else Some (toDER r s)
    end.

(** The loop: candidates come from the generator until one gives a
    signature. *)
Fixpoint signWith (fuel : nat) (st : HmacDrbg.State) (priv msg : Z) : result string :=
  let '(bytes, st') := HmacDrbg.generate st in
  match signAttempt (truncateToN (ofBytes bytes) true) priv msg with
  | Some signature => Ok signature
  | None =>
      match fuel with
      | S fuel' => signWith fuel' st' priv msg
      | O => Throw "no nonce"
      end
  end.

(** [key.sign(hash).toDER('hex')], for the text [hash] of a hash in
    hexadecimal digits. *)
Definition sign (priv : Z) (hash : string) : result string :=
  let msg := truncateToN (ofHex hash) false in
  signWith 64 (HmacDrbg.init (toBytes 32 priv) (toBytes 32 msg)) priv msg.

(** The length byte of a DER element, in the short form. *)
Definition derLength (b : option N) : option nat :=
  match b with
  | Some len => if (len <? 128)%N then Some (N.to_nat len) else None
  | None => None
  end.

Definition derUnpad (bytes : list (option N)) : option (list (option N)) :=
  match bytes with
  | Some 0%N :: rest =>
      match rest with
      | Some b :: _ => if (128 <=? b)%N then Some rest else None
      | _ => None
      end
  | _ => Some bytes
  end.

(** [new Signature(signature, 'hex')]: the two integers of a DER
    signature. *)
Definition importDER (signature : string) : option (Z * Z) :=
  match arrayOfHex signature with
  | Some 48%N :: len :: Some 2%N :: rlen :: rest =>
      match derLength len, derLength rlen with
      | Some len, Some rlen =>
          if (len =? 2 + length rest)%nat then
            match skipn rlen rest with
            | Some 2%N :: slen :: sbytes =>
                match derLength slen with
                | Some slen =>
                    if (slen =? length sbytes)%nat then
                      match derUnpad (firstn rlen rest), derUnpad sbytes with
                      | Some r, Some s => Some (ofArray r, ofArray s)
                      | _, _ => None
                      end
                    else None
                | None => None
                end
            | _ => None
            end
          else None
      | _, _ => None
      end
  | _ => None
  end.

(** [key.verify(hash, signature)] *)
Definition verify (Q : Point) (hash signature : string) : result bool :=
  let msg := truncateToN (ofHex hash) false in
  match importDER signature with
  | None => Throw "Signature without r or s"
  | Some (r, s) =>
      if (r <? 1) || (n <=? r) || (s <? 1) || (n <=? s) then Ok false
      else
        let sinv := invmod n s in
        let u1 := (sinv * msg) mod n in
        let u2 := (sinv * r) mod n in
        match mulAdd u1 Q u2 with
        | None => Ok false
        | Some (x, _) => Ok (x mod n =? r)
        end
  end.

End Secp256k1.


(** The double of the generator, and the signature of the test vector of
    RFC 6979 for this curve (the key 1 and the SHA-256 hash of "Satoshi
    Nakamoto"), before the reduction of [s] to the lower half. *)
Example secp256k1_double :
  Secp256k1.encodePoint (Secp256k1.mul 2 Secp256k1.G)
  = "04c6047f9441ed7d6d3045406e95c07cd85c778e4b8cef3ca7abac09b95c709ee51ae168fea63dc339a3c58419466ceaeef7f632653266d0e1236431a950cfe52a".
Proof. vm_compute. reflexivity. Qed.

Example secp256k1_sign_rfc6979 :
  Secp256k1.sign 1 (Hex.toString (Sha256.digest (Js.utf8 "Satoshi Nakamoto")))
  = Ok "3046022100934b1ea10a4b3c1757e2b0c017d0b6143ce3c9a7e6a4a49860d7a6ab210ee3d8022100dbbd3162d46e9f9bef7feb87c16dc13b4f6568a87f4e83f728e2443ba586675c".
Proof. vm_compute. reflexivity. Qed.

(** ** [routes/disclosures.ts]: [POST /api/v1/disclosures/verify] *)

Module Disclosures.

Record VerifyRequest := {
  disclosedData : list (string * Value);
  merkleProof : string;
  originalMerkleRoot : string
}.

Record Response := {
  status : nat;
  body : Value
}.

(** [verifyDisclosureSchema.parse(req.body)]; [None] is a [ZodError]. *)
Definition verifyDisclosureSchema (requestBody : Value) : option VerifyRequest :=
  match property requestBody "disclosedData",
        property requestBody "merkleProof",
        property requestBody "originalMerkleRoot" with
  | Some (VObject fields), Some (VString p), Some (VString r) =>
      Some {| disclosedData := fields; merkleProof := p; originalMerkleRoot := r |}
  | _, _, _ => None
  end.

(** [String(v)], the key of the default [sort]. *)
Fixpoint stringOf (v : Value) : string :=
  match v with
  | VNull => "null"
  | VBool true => "true"
  | VBool false => "false"
  | VNumber n => Js.decimal n
  | VString s => s
  | VArray items =>
      Js.joinWith "," (map (fun item => match item with
                                        | VNull => EmptyString
                                        | _ => stringOf item
                                        end) items)
  | VObject _ => "[object Object]"
  end.

Definition sortValues (l : list Value) : list Value :=
  merge_sort (fun a b => String.le (stringOf a) (stringOf b)) l.

(** [hashes.includes(h)] for an array of strings [hashes]. *)
Definition includesValue (h : Value) (hashes : list string) : bool :=
  match h with
  | VString s => Js.includes s hashes
  | _ => false
  end.

Section Routes.

Context `{J : Json}.

(** The handler's [try] block after the schema check. [allHashes] is
    computed and sorted, and [isValid] is the constant [true]. *)
Definition verify_try (request : VerifyRequest) : result Response :=
  let tree := buildMerkleTree (disclosedData request) in
  parsed ← JSON_parse (merkleProof request);
  proofHashes ← match parsed with
                | VArray items => Ok items
                | _ => Throw "proofHashes.filter is not a function"
                end;
  let leafValues := snd <$> leaves tree in
  let allHashes :=
    sortValues ((VString <$> leafValues) ++
                List.filter (fun h => negb (includesValue h leafValues)) proofHashes) in
  let isValid := true in
  mret {| status := 200;
          body := VObject
            [("valid", VBool isValid);
             ("disclosedFieldCount", VNumber (Z.of_nat (length (disclosedData request))));
             ("expectedRoot", VString (originalMerkleRoot request));
             ("message", VString (if isValid
                then "Disclosed data is authentic and part of original transaction"
                else "Verification failed - data may be tampered"))] |}.

(** The handler; the issue list of the 400 answer is left out. *)
Definition verify (requestBody : Value) : Response :=
  match verifyDisclosureSchema requestBody with
  | None => {| status := 400; body := VObject [("error", VString "Validation failed")] |}
  | Some request =>
      match verify_try request with
      | Ok response => response
      | Throw _ => {| status := 500; body := VObject [("error", VString "Verification failed")] |}
      end
  end.

End Routes.

End Disclosures.

(** ** The disclosure check as the specification words it

    Section 4.5: recompute the leaf digest of each disclosed value, unite
    them with the proof digests, sort, hash, and compare with the expected
    root. The root of a digest list is computed as at build time. *)

Module Spec.

Section Spec.

Context `{J : Json}.

Definition rootOfDigests (digests : list string) : string :=
  match digests with
  | [] => Keccak.keccak256 EmptyString
  | _ => "0x" +:+ Keccak.keccak256 (Js.join (Js.sort digests))
  end.

Definition reconstructedRoot (disclosedValues : list (string * Value))
    (proofDigests : list string) : string :=
  let recomputed := map (fun '(k, v) => leafHash k v) disclosedValues in
  rootOfDigests
    (recomputed ++ List.filter (fun h => negb (Js.includes h recomputed)) proofDigests).

Definition verifyDisclosure (disclosedValues : list (string * Value))
    (proofDigests : list string) (expectedRoot : string) : bool :=
  String.eqb (reconstructedRoot disclosedValues proofDigests) expectedRoot.

End Spec.

End Spec.

(** Two messages do not collide under Keccak-256. *)
Definition noCollision (a b : string) : Prop :=
  Keccak.keccak256 a = Keccak.keccak256 b → a = b.

(** ** Laws of the platform interfaces *)

Definition lowerHex (s : string) : Prop := Js.string_forallb Hex.isLowerHex s = true.

(** [JSON.stringify] never yields the empty string, and an object of four
    hexadecimal string fields parses back to itself. *)
Class JsonLaws `{J : Json} : Prop := {
  stringify_nonempty : ∀ v, JSON_stringify v ≠ EmptyString;
  wrappedKey_round_trip : ∀ a b c d,
    lowerHex a → lowerHex b → lowerHex c → lowerHex d →
    JSON_parse (JSON_stringify (wrappedKey a b c d)) = Ok (wrappedKey a b c d)
}.

(** AES-256-GCM under a 32-byte key encrypts, and decrypting with the same
    key, iv and tag gives the data back; SHA-256 digests are 32 bytes. *)
Class NodeCryptoLaws `{C : NodeCrypto} : Prop := {
  aes256gcm_round_trip : ∀ key iv plaintext,
    length key = 32%nat →
    ∃ ciphertext tag,
      aes256gcm_encrypt key iv plaintext = Ok (ciphertext, tag) ∧
      aes256gcm_decrypt key iv tag ciphertext = Ok plaintext;
  sha256_length : ∀ m, length (sha256 m) = 32%nat
}.

(** Generated keys are valid; the hexadecimal encodings read back;
    Diffie-Hellman agrees on both sides; a signature verifies under the
    public key of the signer. *)
Class EllipticLaws `{E : Elliptic} : Prop := {
  genKeyPair_valid : ∀ e, ec_validate (ec_genKeyPair e).1 = true;
  keyFromPrivate_hex : ∀ k,
    ec_validate k = true → ec_keyFromPrivate (ec_getPrivateHex k) = Ok k;
  keyFromPublic_hex : ∀ k,
    ec_validate k = true →
    ec_keyFromPublic (ec_encodePoint (ec_getPublic k)) = Ok (ec_getPublic k);
  encodePoint_hex : ∀ p, lowerHex (ec_encodePoint p);
  derive_agree : ∀ a b,
    ec_validate a = true → ec_validate b = true →
    ∃ secret,
      ec_derive a (ec_getPublic b) = Ok secret ∧ ec_derive b (ec_getPublic a) = Ok secret;
  sign_verify : ∀ k hash,
    ec_validate k = true →
    ∃ signature,
      ec_sign k hash = Ok signature ∧ ec_verify (ec_getPublic k) hash signature = Ok true
}.

(** ** Key pairs *)

Section Keys.

Context `{E : Elliptic}.

(** A public key is well formed when it decodes to the point of a valid
    scalar. *)
Definition wellFormedPublicKey (publicKey : string) : Prop :=
  ∃ k, ec_validate k = true ∧ ec_keyFromPublic publicKey = Ok (ec_getPublic k).

(** [kp] is a key pair: its private key decodes to a valid scalar and its
    public key decodes to that scalar's point. *)
Definition isKeyPair (kp : KeyPair) : Prop :=
  ∃ k, ec_validate k = true ∧
       ec_keyFromPrivate (privateKey kp) = Ok k ∧
       ec_keyFromPublic (publicKey kp) = Ok (ec_getPublic k).

End Keys.

(** ** Wrapped keys *)

Section Wrapping.

Context `{J : Json} `{C : NodeCrypto} `{E : Elliptic}.

(** One turn of the loop of [createEncryptedEnvelope]. *)
Definition wrapStep (dek : list byte) (encryptedKeys : gmap string string) (pubKey : string)
  : M (gmap string string) :=
  let keyHash := hashPublicKey pubKey in
  wrapped ← encryptDEKForParty dek pubKey None;
  mret (<[keyHash := wrapped]> encryptedKeys).

(** [wrapped] is a non-empty entry from which every key pair of [publicKey]
    recovers [dek]. *)
Definition opens (dek : list byte) (publicKey wrapped : string) : Prop :=
  wrapped ≠ EmptyString ∧
  ∀ privateKey k,
    ec_keyFromPrivate privateKey = Ok k → ec_validate k = true →
    ec_keyFromPublic publicKey = Ok (ec_getPublic k) →
    decryptDEKWithPrivateKey wrapped privateKey = Ok dek.

(** The answer of [decryptEnvelope] to a key without an entry. *)
Definition notAuthorized : DecryptionResult :=
  {| success := false; data := None;
     error := Some "Not authorized to decrypt this data" |}.

End Wrapping.

(** ** Sample inputs *)

Definition tradePayload : list (string * Value) :=
  [("amount", VNumber 500000); ("buyer", VString "Acme")].

(** Key pairs of the small group: the public points of the scalars 5 and 10
    are 15 and 30. *)
Definition sampleKeyPair : KeyPair := {| privateKey := "05"; publicKey := "0f" |}.
Definition sampleRecipients : list string := ["0f"; "1e"].

(** The request that presents the amount 500001 against the root of
    [tradePayload] with the amount 500000 alone. *)
Definition tamperedRequest `{J : Json} : Value :=
  VObject [("disclosedData", VObject [("amount", VNumber 500001)]);
           ("merkleProof", VString "[]");
           ("originalMerkleRoot",
            VString (root (buildMerkleTree [("amount", VNumber 500000)])))].

(** A tape whose i-th byte is i modulo 256. *)
Definition countingTape : Entropy := fun i => Hex.byteOfN (N.of_nat i).



(** ** Fingerprints of texts that are not hexadecimal *)

(** The text begins with two hexadecimal digits. *)
Definition startsWithHexPair (s : string) : bool :=
  match s with
  | String hi (String lo _) =>
      match Hex.hexValue hi, Hex.hexValue lo with
      | Some _, Some _ => true
      | _, _ => false
      end
  | _ => false
  end.

(** The first 40 digits of the Keccak-256 hash of the empty buffer. *)
Definition emptyFingerprint : string := "c5d2460186f7233c927e7db2dcc703c0e500b653".

(** ** [routes/transactions.ts]: the pure steps of the transaction routes *)

Module Transactions.

(** [{ ...payload, _nonce: nonce, _transactionId: transactionId }], the
    object that the create route encrypts. *)
Definition withInternalFields (payload : list (string * Value))
    (nonce transactionId : string) : list (string * Value) :=
  Js.obj_set "_transactionId" (VString transactionId)
    (Js.obj_set "_nonce" (VString nonce) payload).

(** [const { _nonce, _transactionId, ...payload } = result.data], the object
    that the decrypt route answers with. *)
Definition withoutInternalFields (data : list (string * Value)) : list (string * Value) :=
  List.filter (fun '(k, _) => negb (String.eqb k "_nonce")
                              && negb (String.eqb k "_transactionId")) data.

(** The create route stores, for each party, the three payload strings of
    the envelope and [envelope.encryptedKeys[keyHash]]; the decrypt route
    rebuilds from them an envelope whose only key is
    [hashPublicKey(encryptionKey)]. This composes the two steps; the
    database row and the JSON text of the three strings in between are left
    out. *)
Definition partyEnvelope (envelope : EncryptedEnvelope) (encryptionKey : string)
  : EncryptedEnvelope :=
  {| encryptedData := encryptedData envelope;
     iv := iv envelope;
     authTag := authTag envelope;
     encryptedKeys :=
       match encryptedKeys envelope !! hashPublicKey encryptionKey with
       | Some encryptedDek => {[ hashPublicKey encryptionKey := encryptedDek ]}
       | None => ∅
       end |}.

Record TransactionParty := {
  partyId : string;
  role : string;
  signature : option string
}.

(** [p.signature || p.partyId === currentPartyId] *)
Definition signedBy (currentPartyId : string) (p : TransactionParty) : bool :=
  match signature p with
  | Some (String _ _) => true
  | _ => false
  end || String.eqb (partyId p) currentPartyId.

Definition signatories (parties : list TransactionParty) : list TransactionParty :=
  List.filter (fun p => String.eqb (role p) "SIGNATORY") parties.

(** The status that the sign route writes after storing the signature. *)
Definition statusAfterSigning (parties : list TransactionParty)
    (currentPartyId status : string) : string :=
  let allSignatories := signatories parties in
  let signedCount := length (List.filter (signedBy currentPartyId) allSignatories) in
  if (signedCount =? length allSignatories)%nat then "FULLY_SIGNED"
  else if (0 <? signedCount)%nat then "PARTIALLY_SIGNED"
  else status.

(** The commit route's party hint:
    ['0x' + hashPublicKey(p.encryptedDek.substring(0, 66))]. *)
Definition partyHint (encryptedDek : string) : string :=
  "0x" +:+ hashPublicKey (Js.substring0 66 encryptedDek).

Definition txTypeMap : list (string * Z) :=
  [("TRADE_FINANCE", 0%Z); ("RWA_TRANSFER", 1%Z); ("DVP_SETTLEMENT", 2%Z);
   ("PAYMENT", 3%Z); ("CUSTOM", 4%Z)].

(** [txTypeMap[transaction.txType] || 4]: the entry 0 and [undefined] are
    falsy and give 4; a member that the table inherits is truthy and is
    passed on as it is. *)
Definition txTypeNumber (txType : string) : Js.Any Z :=
  match Js.get txType txTypeMap with
  | Js.Data n => if (n =? 0)%Z then Js.Data 4%Z else Js.Data n
  | Js.Undefined => Js.Data 4%Z
  | inherited => inherited
  end.

End Transactions.

(** ** [routes/commitments.ts]: [POST /api/v1/commitments/verify] *)

Module Commitments.

(** The truth value of a field of the request body; a missing field is
    [undefined]. *)
Definition truthy (v : option Value) : bool :=
  match v with
  | None | Some VNull | Some (VBool false) | Some (VNumber Z0)
  | Some (VString EmptyString) => false
  | Some _ => true
  end.

(** What the database knows of the commitment. *)
Record KnownTransaction := {
  transactionId : string;
  status : string;
  commitmentTxHash : option string
}.

Section Routes.

Context `{J : Json}.

(** [verifyCommitment] as the route calls it, on fields of any JSON type: a
    truthy nonce that is not a string is appended as [String(nonce)], a
    falsy one is replaced by a fresh nonce, and an expected commitment that
    is not a string has no [toLowerCase]. *)
Definition verifyCryptoCommitment (data nonce expectedCommitment : Value) : M bool :=
  match expectedCommitment with
  | VString expected =>
      match nonce with
      | VString n => verifyCommitment data n expected
      | _ =>
          if truthy (Some nonce) then
            let dataString := JSON_stringify data +:+ Disclosures.stringOf nonce in
            let commitment := "0x" +:+ Keccak.keccak256 dataString in
            mret (String.eqb (Js.toLowerCase commitment) (Js.toLowerCase expected))
          else verifyCommitment data EmptyString expected
      end
  | _ => lift (Throw "expectedCommitment.toLowerCase is not a function")
  end.

Definition knownTransactionValue (known : option KnownTransaction) : Value :=
  match known with
  | Some t =>
      VObject [("transactionId", VString (transactionId t));
               ("status", VString (status t));
               ("onChain", VBool match commitmentTxHash t with
                                 | Some (String _ _) => true
                                 | _ => false
                                 end)]
  | None => VNull
  end.

(** The handler; [requestBody] is the object or array that
    [express.json()] delivers, and [known] is the row that the database
    finds for the expected commitment. *)
Definition verify (requestBody : Value) (known : option KnownTransaction) (e : Entropy)
  : Disclosures.Response :=
  let data := property requestBody "data" in
  let nonce := property requestBody "nonce" in
  let expectedCommitment := property requestBody "expectedCommitment" in
  match data, nonce, expectedCommitment with
  | Some d, Some n, Some x =>
      if truthy data && truthy nonce && truthy expectedCommitment then
        match run (verifyCryptoCommitment d n x) e with
        | Ok isValid =>
            {| Disclosures.status := 200;
               Disclosures.body := VObject
                 [("valid", VBool isValid);
                  ("expectedCommitment", x);
                  ("knownTransaction", knownTransactionValue known);
                  ("message", VString (if isValid
                     then "Data matches the commitment hash"
                     else "Data does not match the commitment hash"))] |}
        | Throw _ =>
            {| Disclosures.status := 500;
               Disclosures.body := VObject [("error", VString "Verification failed")] |}
        end
      else
        {| Disclosures.status := 400;
           Disclosures.body := VObject
             [("error", VString "Missing required fields: data, nonce, expectedCommitment")] |}
  | _, _, _ =>
      {| Disclosures.status := 400;
         Disclosures.body := VObject
           [("error", VString "Missing required fields: data, nonce, expectedCommitment")] |}
  end.

End Routes.

End Commitments.

(** ** [routes/disclosures.ts]: the payload of [POST /api/v1/disclosures] *)

Module DisclosureCreate.

(** The loop that fills [samplePayload]:
    [samplePayload[field] = `[Disclosed: ${field}]`]. *)
Definition samplePayload (disclosedFields : list string) : list (string * Value) :=
  fold_left (fun samplePayload field =>
               Js.assign field (VString ("[Disclosed: " +:+ field +:+ "]")) samplePayload)
            disclosedFields [].

End DisclosureCreate.

(** One placeholder entry per name, in the order of the names. *)
Definition placeholders (names : list string) : list (string * Value) :=
  map (fun field => (field, VString ("[Disclosed: " +:+ field +:+ "]"))) names.

(** The JSON text of an object of four hexadecimal strings, the form of
    every wrapped key. *)
Definition wrappedShape `{J : Json} (w : string) : Prop :=
  ∃ a b c d, w = JSON_stringify (wrappedKey a b c d) ∧
             lowerHex a ∧ lowerHex b ∧ lowerHex c ∧ lowerHex d.

(** Two signatories without a signature on record, and an observer. *)
Definition sampleParties : list Transactions.TransactionParty :=
  [{| Transactions.partyId := "alice"; Transactions.role := "SIGNATORY";
      Transactions.signature := None |};
   {| Transactions.partyId := "bob"; Transactions.role := "SIGNATORY";
      Transactions.signature := None |};
   {| Transactions.partyId := "carol"; Transactions.role := "OBSERVER";
      Transactions.signature := None |}].

(** * Proofs *)

(** The permutation is only ever run by [vm_compute]; proof search does not
    unfold it. *)
Opaque Keccak.digest.

(** ** Strings, hexadecimal text and sorting *)

Lemma hexValue_hexDigit_hi (b : byte) :
  Hex.hexValue (Hex.hexDigit (Byte.to_N b / 16)) = Some (Byte.to_N b / 16).
Proof. destruct b; reflexivity. Qed.

Lemma hexValue_hexDigit_lo (b : byte) :
  Hex.hexValue (Hex.hexDigit (Byte.to_N b mod 16)) = Some (Byte.to_N b mod 16).
Proof. destruct b; reflexivity. Qed.

Lemma byteOfN_nibbles (b : byte) :
  Hex.byteOfN (16 * (Byte.to_N b / 16) + Byte.to_N b mod 16) = b.
Proof. destruct b; reflexivity. Qed.

Lemma hex_round_trip (bs : list byte) : Hex.from (Hex.toString bs) = bs.
Proof.
  induction bs as [|b bs IH]; [reflexivity|].
  cbn [Hex.toString Hex.from].
  rewrite hexValue_hexDigit_hi, hexValue_hexDigit_lo, byteOfN_nibbles, IH.
  reflexivity.
Qed.

Lemma hexDigit_lower (b : byte) :
  Hex.isLowerHex (Hex.hexDigit (Byte.to_N b / 16)) = true ∧
  Hex.isLowerHex (Hex.hexDigit (Byte.to_N b mod 16)) = true.
Proof. destruct b; split; reflexivity. Qed.

Lemma toString_lowerHex (bs : list byte) : lowerHex (Hex.toString bs).
Proof.
  unfold lowerHex. induction bs as [|b bs IH]; [reflexivity|].
  cbn [Hex.toString Js.string_forallb].
  destruct (hexDigit_lower b) as [-> ->]. exact IH.
Qed.

Lemma lowerChar_lowerHex (c : ascii) : Hex.isLowerHex c = true → Js.lowerChar c = c.
Proof.
  unfold Hex.isLowerHex, Js.lowerChar. intros H.
  destruct (65 <=? N_of_ascii c) eqn:H1; [|reflexivity].
  destruct (N_of_ascii c <=? 90) eqn:H2; [|reflexivity].
  apply N.leb_le in H1, H2. exfalso.
  apply orb_true_iff in H as [H|H]; apply andb_true_iff in H as [Ha Hb];
    apply N.leb_le in Ha, Hb; lia.
Qed.

Lemma toLowerCase_lowerHex (s : string) : lowerHex s → Js.toLowerCase s = s.
Proof.
  unfold lowerHex, Js.toLowerCase. induction s as [|c s IH]; [reflexivity|].
  cbn [Js.string_forallb Js.string_map]. intros [Hc Hs]%andb_true_iff.
  rewrite lowerChar_lowerHex, IH; auto.
Qed.

Lemma keccak256_lowerHex (m : string) : lowerHex (Keccak.keccak256 m).
Proof. apply toString_lowerHex. Qed.

Lemma toLowerCase_0x (h : string) :
  lowerHex h → Js.toLowerCase ("0x" +:+ h) = "0x" +:+ h.
Proof.
  intros H. change ("0x" +:+ h) with (String "0" (String "x" h)).
  unfold Js.toLowerCase. cbn [Js.string_map].
  fold (Js.toLowerCase h). rewrite (toLowerCase_lowerHex h H). reflexivity.
Qed.

Lemma utf8_round_trip (s : string) : Js.fromUtf8 (Js.utf8 s) = s.
Proof. apply string_of_list_byte_of_string. Qed.

Lemma sort_Permutation (l : list string) : Js.sort l ≡ₚ l.
Proof. apply merge_sort_Permutation. Qed.

Lemma sort_Sorted (l : list string) : Sorted String.le (Js.sort l).
Proof. apply (Sorted_merge_sort String.le). Qed.

Lemma sort_unique (l1 l2 : list string) : l1 ≡ₚ l2 → Js.sort l1 = Js.sort l2.
Proof.
  intros H. apply (Sorted_unique String.le); try apply sort_Sorted.
  rewrite !sort_Permutation. exact H.
Qed.

Lemma includes_elem_of (k : string) (names : list string) :
  Js.includes k names = true ↔ k ∈ names.
Proof.
  unfold Js.includes. rewrite existsb_exists. split.
  - intros (x & Hin & Heq). apply String.eqb_eq in Heq. subst.
    apply list_elem_of_In, Hin.
  - intros Hin. exists k. split; [apply list_elem_of_In, Hin | apply String.eqb_refl].
Qed.

(** ** Plain objects *)

Lemma obj_get_obj_set {V} (k k' : string) (v : V) (o : list (string * V)) :
  Js.obj_get k (Js.obj_set k' v o)
  = if String.eqb k k' then Some v else Js.obj_get k o.
Proof.
  induction o as [|[k0 v0] o IH]; cbn.
  - by destruct (String.eqb_spec k k').
  - destruct (String.eqb_spec k' k0) as [->|Hne]; cbn.
    + by destruct (String.eqb_spec k k0).
    + destruct (String.eqb_spec k k0) as [->|Hne'].
      * destruct (String.eqb_spec k0 k'); [by subst|done].
      * apply IH.
Qed.

Lemma obj_get_Some_elem_of {V} (k : string) (v : V) (o : list (string * V)) :
  Js.obj_get k o = Some v → (k, v) ∈ o.
Proof.
  induction o as [|[k0 v0] o IH]; cbn; [done|].
  destruct (String.eqb_spec k k0) as [->|Hne].
  - intros [= ->]. apply elem_of_cons. by left.
  - intros H. apply elem_of_cons. right. by apply IH.
Qed.

Lemma obj_get_None_keys {V} (k : string) (o : list (string * V)) :
  Js.obj_get k o = None ↔ k ∉ o.*1.
Proof.
  induction o as [|[k0 v0] o IH]; cbn.
  - split; [intros _; apply not_elem_of_nil|done].
  - rewrite not_elem_of_cons. destruct (String.eqb_spec k k0) as [->|Hne].
    + split; [done|]. by intros [? _].
    + rewrite IH. split; [by intros ?|by intros [_ ?]].
Qed.

Lemma obj_set_fresh {V} (k : string) (v : V) (o : list (string * V)) :
  k ∉ o.*1 → Js.obj_set k v o = o ++ [(k, v)].
Proof.
  induction o as [|[k' v'] o IH]; cbn; [done|].
  intros Hk. apply not_elem_of_cons in Hk as [Hne Hk].
  destruct (String.eqb_spec k k'); [done|]. by rewrite IH.
Qed.

Lemma obj_get_insertIndex {V} (i : N) (k k' : string) (v : V) (o : list (string * V)) :
  Js.obj_get k' o = None →
  Js.obj_get k (Js.insertIndex i k' v o)
  = if String.eqb k k' then Some v else Js.obj_get k o.
Proof.
  induction o as [|[k0 v0] o IH]; cbn [Js.insertIndex Js.obj_get]; [done|].
  destruct (String.eqb_spec k' k0) as [->|Hne]; [discriminate|]. intros Hnone.
  destruct (Js.arrayIndex k0) as [j|]; [destruct (j <? i)|]; cbn [Js.obj_get]; [|done..].
  rewrite (IH Hnone). destruct (String.eqb_spec k k0) as [->|]; [|done].
  by destruct (String.eqb_spec k0 k').
Qed.

Lemma insertIndex_Permutation {V} (i : N) (k : string) (v : V) (o : list (string * V)) :
  Js.insertIndex i k v o ≡ₚ (k, v) :: o.
Proof.
  induction o as [|[k0 v0] o IH]; cbn [Js.insertIndex]; [done|].
  destruct (Js.arrayIndex k0) as [j|]; [destruct (j <? i)|]; [|done..].
  rewrite IH. apply perm_swap.
Qed.

Lemma obj_get_define {V} (k k' : string) (v : V) (o : list (string * V)) :
  Js.obj_get k (Js.define k' v o)
  = if String.eqb k k' then Some v else Js.obj_get k o.
Proof.
  unfold Js.define.
  destruct (Js.arrayIndex k') as [i|]; [destruct (Js.obj_get k' o) eqn:Hk'|];
    [apply obj_get_obj_set | by apply obj_get_insertIndex | apply obj_get_obj_set].
Qed.

Lemma define_Permutation {V} (k : string) (v : V) (o : list (string * V)) :
  Js.obj_get k o = None → Js.define k v o ≡ₚ (k, v) :: o.
Proof.
  intros Hk. unfold Js.define. rewrite Hk.
  destruct (Js.arrayIndex k) as [i|]; [apply insertIndex_Permutation|].
  rewrite obj_set_fresh by (by apply obj_get_None_keys).
  symmetry. apply Permutation_cons_append.
Qed.

Lemma obj_get_fmap {V W} (f : V → W) (k : string) (o : list (string * V)) :
  Js.obj_get k (prod_map id f <$> o) = f <$> Js.obj_get k o.
Proof.
  induction o as [|[k0 v0] o IH]; cbn; [done|].
  by destruct (String.eqb k k0).
Qed.

Lemma obj_set_fmap {V W} (f : V → W) (k : string) (v : V) (o : list (string * V)) :
  Js.obj_set k (f v) (prod_map id f <$> o) = prod_map id f <$> Js.obj_set k v o.
Proof.
  induction o as [|[k0 v0] o IH]; cbn; [done|].
  destruct (String.eqb k k0); cbn; [done|]. by rewrite IH.
Qed.

Lemma insertIndex_fmap {V W} (f : V → W) (i : N) (k : string) (v : V)
    (o : list (string * V)) :
  Js.insertIndex i k (f v) (prod_map id f <$> o) = prod_map id f <$> Js.insertIndex i k v o.
Proof.
  induction o as [|[k0 v0] o IH]; cbn; [done|].
  destruct (Js.arrayIndex k0) as [j|]; [destruct (j <? i)|]; cbn; [|done..].
  by rewrite IH.
Qed.

Lemma define_fmap {V W} (f : V → W) (k : string) (v : V) (o : list (string * V)) :
  Js.define k (f v) (prod_map id f <$> o) = prod_map id f <$> Js.define k v o.
Proof.
  unfold Js.define. rewrite obj_get_fmap.
  destruct (Js.arrayIndex k) as [i|]; [destruct (Js.obj_get k o)|]; cbn [fmap option_fmap option_map];
    [apply obj_set_fmap | apply insertIndex_fmap | apply obj_set_fmap].
Qed.

Lemma get_own {V} (k : string) (v : V) (o : list (string * V)) :
  Js.obj_get k o = Some v → Js.get k o = Js.Data v.
Proof. intros H. unfold Js.get. by rewrite H. Qed.

(** Sorting commutes with an embedding that respects the order. *)
Section merge_sort_fmap.

Context {A B : Type} (R : relation A) (R' : relation B).
Context `{!RelDecision R} `{!RelDecision R'} (f : A → B).
Hypothesis respects : ∀ x y, R x y ↔ R' (f x) (f y).

Lemma list_merge_fmap (l1 l2 : list A) :
  list_merge R' (f <$> l1) (f <$> l2) = f <$> list_merge R l1 l2.
Proof.
  revert l2. induction l1 as [|x1 l1 IH1]; intros l2.
  - change (f <$> []) with (@nil B). by rewrite !list_merge_nil_l.
  - induction l2 as [|x2 l2 IH2].
    + change (f <$> []) with (@nil B). by rewrite !list_merge_nil_r.
    + rewrite !fmap_cons, !list_merge_cons.
      destruct (decide (R x1 x2)) as [Hr|Hr], (decide (R' (f x1) (f x2))) as [Hr'|Hr'].
      * rewrite fmap_cons. f_equal. rewrite <- fmap_cons. apply IH1.
      * exfalso. by apply Hr', respects.
      * exfalso. by apply Hr, respects.
      * rewrite fmap_cons. f_equal. rewrite <- fmap_cons. apply IH2.
Qed.

Lemma merge_list_to_stack_fmap (st : list (option (list A))) (l : list A) :
  merge_list_to_stack R' (map (option_map (fmap f)) st) (f <$> l)
  = map (option_map (fmap f)) (merge_list_to_stack R st l).
Proof.
  revert l. induction st as [|[l'|] st IH]; intros l; cbn; [done| |done].
  f_equal. rewrite list_merge_fmap. apply IH.
Qed.

Lemma merge_stack_fmap (st : list (option (list A))) :
  merge_stack R' (map (option_map (fmap f)) st) = f <$> merge_stack R st.
Proof.
  induction st as [|[l'|] st IH]; cbn; [done| |done].
  rewrite IH. apply list_merge_fmap.
Qed.

Lemma merge_sort_aux_fmap (st : list (option (list A))) (l : list A) :
  merge_sort_aux R' (map (option_map (fmap f)) st) (f <$> l) = f <$> merge_sort_aux R st l.
Proof.
  revert st. induction l as [|x l IH]; intros st; cbn.
  - apply merge_stack_fmap.
  - rewrite <- IH. f_equal. apply (merge_list_to_stack_fmap st [x]).
Qed.

Lemma merge_sort_fmap (l : list A) : merge_sort R' (f <$> l) = f <$> merge_sort R l.
Proof. apply (merge_sort_aux_fmap []). Qed.

End merge_sort_fmap.

Lemma sortAny_Data (digests : list string) :
  Js.sortAny (Js.Data <$> digests) = Js.Data <$> Js.sort digests.
Proof. apply merge_sort_fmap. intros x y. reflexivity. Qed.

(** ** The disclosure tree *)

Lemma filter_Permutation {A} (p : A → bool) (l1 l2 : list A) :
  l1 ≡ₚ l2 → List.filter p l1 ≡ₚ List.filter p l2.
Proof.
  induction 1 as [|x l1 l2 _ IH|x y l|l1 l2 l3 _ IH1 _ IH2]; cbn.
  - done.
  - destruct (p x); [by f_equiv|done].
  - destruct (p x), (p y); try done. apply perm_swap.
  - by etransitivity.
Qed.

Lemma not_prototypeMember (name : string) :
  name ∉ Js.prototypeMembers →
  String.eqb name "__proto__" = false ∧ Js.includes name Js.prototypeMembers = false.
Proof.
  intros Hname. split.
  - apply String.eqb_neq. intros ->. apply Hname.
    apply includes_elem_of. reflexivity.
  - apply not_true_is_false. by rewrite includes_elem_of.
Qed.

Section MerkleProofs.

Context `{J : Json}.

Lemma buildMerkleTree_fold (fields : list (string * Value)) leaves0 hashes0 :
  fold_left (fun '(leaves, hashes) '(key, value) =>
               let leafHash := leafHash key value in
               (Js.assign key leafHash leaves, hashes ++ [leafHash]))
            fields (leaves0, hashes0)
  = (fold_left (fun leaves '(key, value) => Js.assign key (leafHash key value) leaves)
               fields leaves0,
     hashes0 ++ leafDigests fields).
Proof.
  revert leaves0 hashes0. induction fields as [|[k v] fields IH]; intros; cbn.
  - by rewrite app_nil_r.
  - rewrite IH. by rewrite <- app_assoc.
Qed.

Lemma buildMerkleTree_root_nil :
  root (buildMerkleTree []) = Keccak.keccak256 EmptyString.
Proof. reflexivity. Qed.

Lemma buildMerkleTree_root_cons (f : string * Value) (fields : list (string * Value)) :
  root (buildMerkleTree (f :: fields))
  = "0x" +:+ Keccak.keccak256 (Js.join (Js.sort (leafDigests (f :: fields)))).
Proof.
  unfold buildMerkleTree. rewrite buildMerkleTree_fold.
  destruct f as [k v]. cbn [app leafDigests map length Nat.eqb]. reflexivity.
Qed.

Lemma leafDigests_Permutation (f1 f2 : list (string * Value)) :
  f1 ≡ₚ f2 → leafDigests f1 ≡ₚ leafDigests f2.
Proof. intros H. unfold leafDigests. by rewrite H. Qed.

End MerkleProofs.

Section MerkleTheorems.

Context `{J : Json}.

Lemma leafEntries_keys (fields : list (string * Value)) :
  (leafEntries fields).*1 = fields.*1.
Proof. induction fields as [|[k v] fields IH]; cbn; [done|]. by f_equal. Qed.

Lemma leafEntries_values (fields : list (string * Value)) :
  (leafEntries fields).*2 = leafDigests fields.
Proof. induction fields as [|[k v] fields IH]; cbn; [done|]. by f_equal. Qed.

Lemma leafEntries_filter (p : string → bool) (fields : list (string * Value)) :
  List.filter (fun '(k, _) => p k) (leafEntries fields)
  = leafEntries (List.filter (fun '(k, _) => p k) fields).
Proof.
  unfold leafEntries. induction fields as [|[k v] fields IH]; cbn; [done|].
  destruct (p k); cbn; by rewrite IH.
Qed.

(** The fields that get an entry in [leaves]. *)
Lemma leaves_fold_lookup (fields : list (string * Value)) (leaves0 : list (string * string))
    (name : string) :
  NoDup fields.*1 →
  Js.obj_get name
    (fold_left (fun leaves '(key, value) => Js.assign key (leafHash key value) leaves)
               fields leaves0)
  = if String.eqb name "__proto__" then Js.obj_get name leaves0
    else match Js.obj_get name fields with
         | Some v => Some (leafHash name v)
         | None => Js.obj_get name leaves0
         end.
Proof.
  revert leaves0. induction fields as [|[k v] fields IH]; intros leaves0 Hnd; cbn [fold_left].
  - cbn. by destruct (String.eqb name "__proto__").
  - rewrite fmap_cons in Hnd. apply NoDup_cons in Hnd as [Hk Hnd]. cbn [fst] in Hk.
    rewrite (IH _ Hnd). cbn [Js.obj_get]. unfold Js.assign.
    destruct (String.eqb_spec name "__proto__") as [Hp|Hnp].
    + destruct (String.eqb_spec k "__proto__") as [Hkp|Hkp]; [done|].
      rewrite obj_get_define. destruct (String.eqb_spec name k); [congruence|done].
    + destruct (String.eqb_spec name k) as [->|Hne].
      * apply obj_get_None_keys in Hk. rewrite Hk.
        destruct (String.eqb_spec k "__proto__"); [done|].
        by rewrite obj_get_define, String.eqb_refl.
      * destruct (Js.obj_get name fields); [done|].
        destruct (String.eqb_spec k "__proto__"); [done|].
        rewrite obj_get_define. by destruct (String.eqb_spec name k).
Qed.

Lemma leaves_fold_Permutation (fields : list (string * Value))
    (leaves0 : list (string * string)) :
  NoDup (leaves0.*1 ++ fields.*1) →
  fold_left (fun leaves '(key, value) => Js.assign key (leafHash key value) leaves)
            fields leaves0
  ≡ₚ leaves0 ++ leafEntries (List.filter (fun '(k, _) => negb (String.eqb k "__proto__"))
                               fields).
Proof.
  revert leaves0. induction fields as [|[k v] fields IH]; intros leaves0 Hnd; cbn [fold_left].
  - cbn. by rewrite app_nil_r.
  - rewrite fmap_cons in Hnd. cbn [fst] in Hnd.
    apply NoDup_app in Hnd as (Hl & Hdisj & Hf).
    apply NoDup_cons in Hf as [Hk Hf].
    assert (Hfresh : Js.obj_get k leaves0 = None).
    { apply obj_get_None_keys. intros Hin. apply (Hdisj _ Hin). by left. }
    cbn [List.filter]. unfold Js.assign.
    destruct (String.eqb_spec k "__proto__") as [->|Hkp]; cbn [negb].
    + apply IH. apply NoDup_app. split_and!; [done| |done].
      intros x Hx Hx'. apply (Hdisj x Hx). by right.
    + rewrite IH.
      * rewrite (define_Permutation k _ leaves0 Hfresh). cbn [leafEntries map].
        by rewrite <- Permutation_middle.
      * rewrite (define_Permutation k _ leaves0 Hfresh). cbn.
        apply NoDup_cons. split.
        -- intros [Hin|Hin]%elem_of_app; [|done]. apply (Hdisj _ Hin). by left.
        -- apply NoDup_app. split_and!; [done| |done].
           intros x Hx Hx'. apply (Hdisj x Hx). by right.
Qed.

Lemma leaves_fold_keys (fields : list (string * Value)) (leaves0 : list (string * string))
    (name : string) :
  name ∉ fields.*1 →
  Js.obj_get name
    (fold_left (fun leaves '(key, value) => Js.assign key (leafHash key value) leaves)
               fields leaves0)
  = Js.obj_get name leaves0.
Proof.
  revert leaves0. induction fields as [|[k v] fields IH]; intros leaves0 Hname; [done|].
  rewrite fmap_cons in Hname. apply not_elem_of_cons in Hname as [Hne Hname].
  cbn [fold_left fst] in *. rewrite (IH _ Hname). unfold Js.assign.
  destruct (String.eqb k "__proto__"); [done|].
  rewrite obj_get_define. by destruct (String.eqb_spec name k).
Qed.

Lemma leaves_never_proto (fields : list (string * Value)) (leaves0 : list (string * string)) :
  Js.obj_get "__proto__"
    (fold_left (fun leaves '(key, value) => Js.assign key (leafHash key value) leaves)
               fields leaves0)
  = Js.obj_get "__proto__" leaves0.
Proof.
  revert leaves0. induction fields as [|[k v] fields IH]; intros leaves0; [done|].
  cbn [fold_left]. rewrite IH. unfold Js.assign.
  destruct (String.eqb_spec k "__proto__") as [->|Hkp]; [done|].
  rewrite obj_get_define. by destruct (String.eqb_spec "__proto__" k).
Qed.

Lemma buildMerkleTree_leaves (fields : list (string * Value)) :
  leaves (buildMerkleTree fields)
  = fold_left (fun leaves '(key, value) => Js.assign key (leafHash key value) leaves)
              fields [].
Proof.
  unfold buildMerkleTree. rewrite buildMerkleTree_fold. by destruct (length _ =? 0)%nat.
Qed.

Lemma disclosed_loop (allFields : list (string * Value)) (leaves : list (string * string))
    (names : list string) (acc : list (Js.Any string)) :
  (∀ name, name ∈ names → name ∈ Js.prototypeMembers → name ∈ allFields.*1) →
  (∀ name v, Js.obj_get name allFields = Some v →
             Js.obj_get name leaves = Some (leafHash name v)) →
  fold_left (fun proofHashes fieldName =>
               match Js.get fieldName allFields with
               | Js.Undefined => proofHashes
               | _ => proofHashes ++ [Js.get fieldName leaves]
               end) names acc
  = acc ++ (Js.Data <$> disclosedDigests allFields names).
Proof.
  intros Hmem Hleaves. revert acc Hmem.
  induction names as [|name names IH]; intros acc Hmem; cbn [fold_left].
  - cbn. by rewrite app_nil_r.
  - rewrite IH by (intros n Hn; apply Hmem; by right).
    unfold disclosedDigests. cbn [flat_map]. fold (disclosedDigests allFields names).
    unfold Js.get.
    destruct (Js.obj_get name allFields) as [v|] eqn:Hv.
    + rewrite (Hleaves name v Hv). rewrite fmap_app, <- app_assoc. reflexivity.
    + assert (Hname : name ∉ Js.prototypeMembers).
      { intros Hin. apply obj_get_None_keys in Hv. apply Hv, Hmem; [by left|done]. }
      destruct (not_prototypeMember name Hname) as [-> ->]. reflexivity.
Qed.

Lemma hidden_loop (leaves : list (string * string)) (names : list string)
    (acc : list (Js.Any string)) :
  fold_left (fun proofHashes '(key, hash) =>
               if negb (Js.includes key names) then proofHashes ++ [Js.Data hash]
               else proofHashes)
            leaves acc
  = acc ++ (Js.Data <$> (List.filter (fun '(k, _) => negb (Js.includes k names)) leaves).*2).
Proof.
  revert acc. induction leaves as [|[k h] leaves IH]; intros acc; cbn [fold_left].
  - cbn. by rewrite app_nil_r.
  - rewrite IH. cbn [List.filter].
    destruct (Js.includes k names); cbn [negb]; [done|].
    by rewrite <- app_assoc.
Qed.

(** With names that are fields or are not inherited, the proof holds the
    digests of the disclosed fields and of the hidden fields, sorted. *)
Lemma proofHashesOf_digests (allFields : list (string * Value)) (names : list string) :
  NoDup allFields.*1 →
  "__proto__" ∉ allFields.*1 →
  (∀ name, name ∈ names → name ∈ Js.prototypeMembers → name ∈ allFields.*1) →
  proofHashesOf allFields names
  = Js.Data <$> Js.sort (disclosedDigests allFields names ++ hiddenDigests allFields names).
Proof.
  intros Hnd Hproto Hmem. unfold proofHashesOf, collectProofHashes.
  rewrite buildMerkleTree_leaves.
  set (leaves := fold_left _ allFields []).
  assert (Hlookup : ∀ name v, Js.obj_get name allFields = Some v →
                              Js.obj_get name leaves = Some (leafHash name v)).
  { intros name v Hv. unfold leaves. rewrite (leaves_fold_lookup allFields [] name Hnd), Hv.
    destruct (String.eqb_spec name "__proto__") as [->|]; [|done].
    exfalso. apply Hproto. apply obj_get_Some_elem_of in Hv.
    apply list_elem_of_fmap. by exists ("__proto__", v). }
  assert (Hperm : leaves ≡ₚ leafEntries allFields).
  { unfold leaves. rewrite (leaves_fold_Permutation allFields []) by done. cbn [app].
    f_equiv. clear -Hproto. induction allFields as [|[k v] fields IH]; [done|].
    rewrite fmap_cons in Hproto. apply not_elem_of_cons in Hproto as [Hk Hproto].
    cbn [List.filter fst] in *. destruct (String.eqb_spec k "__proto__"); [done|].
    cbn [negb]. f_equal. by apply IH. }
  rewrite (disclosed_loop allFields leaves names [] Hmem Hlookup), hidden_loop.
  cbn [app]. rewrite <- fmap_app, sortAny_Data. f_equal. apply sort_unique.
  f_equiv. rewrite (filter_Permutation _ _ _ Hperm).
  rewrite (leafEntries_filter (fun k => negb (Js.includes k names))).
  by rewrite leafEntries_values.
Qed.

(** C7. Two field maps with the same (name, value) pairs, enumerated in any
    order, have the same root; for a non-empty field map the root is the
    0x-prefixed Keccak-256 hash of the concatenation of the sorted leaf
    digests. *)
Theorem buildMerkleTree_root_order_independent (fields1 fields2 : list (string * Value)) :
  fields1 ≡ₚ fields2 →
  root (buildMerkleTree fields1) = root (buildMerkleTree fields2) ∧
  (fields1 ≠ [] →
   ∃ sorted : list string,
     Sorted String.le sorted ∧ sorted ≡ₚ leafDigests fields1 ∧
     root (buildMerkleTree fields1) = "0x" +:+ Keccak.keccak256 (Js.join sorted)).
Proof.
  intros Hperm. split.
  - destruct fields1 as [|f1 fs1], fields2 as [|f2 fs2].
    + reflexivity.
    + by apply Permutation_nil_cons in Hperm.
    + symmetry in Hperm. by apply Permutation_nil_cons in Hperm.
    + rewrite !buildMerkleTree_root_cons.
      by rewrite (sort_unique _ _ (leafDigests_Permutation _ _ Hperm)).
  - intros Hne. destruct fields1 as [|f1 fs1]; [done|].
    exists (Js.sort (leafDigests (f1 :: fs1))). split_and!.
    + apply sort_Sorted.
    + apply sort_Permutation.
    + apply buildMerkleTree_root_cons.
Qed.

(** C10. The root starts with "0x" exactly when the field map is not empty;
    the root of the empty map is the bare hexadecimal hash of the empty
    string, so it differs from the root of every non-empty map. *)
Theorem buildMerkleTree_root_prefix (fields : list (string * Value)) :
  (Js.startsWith "0x" (root (buildMerkleTree fields)) = true ↔ fields ≠ []) ∧
  root (buildMerkleTree []) = Keccak.keccak256 EmptyString ∧
  root (buildMerkleTree [])
    = "c5d2460186f7233c927e7db2dcc703c0e500b653ca82273b7bfad8045d85a470" ∧
  (fields ≠ [] → root (buildMerkleTree fields) ≠ root (buildMerkleTree [])).
Proof.
  assert (Hnil : root (buildMerkleTree [])
    = "c5d2460186f7233c927e7db2dcc703c0e500b653ca82273b7bfad8045d85a470").
  { rewrite buildMerkleTree_root_nil. apply keccak256_empty. }
  split; [|split; [|split]].
  - destruct fields as [|f fs].
    + rewrite Hnil. split; [intros H; vm_compute in H; discriminate H | intros H; exfalso; apply H; reflexivity].
    + rewrite buildMerkleTree_root_cons.
      generalize (Keccak.keccak256 (Js.join (Js.sort (leafDigests (f :: fs))))).
      intros h. split; [done | intros _; reflexivity].
  - reflexivity.
  - exact Hnil.
  - intros Hne. destruct fields as [|f fs]; [exfalso; apply Hne; reflexivity|].
    rewrite buildMerkleTree_root_cons. rewrite Hnil.
    generalize (Keccak.keccak256 (Js.join (Js.sort (leafDigests (f :: fs))))).
    intros h. discriminate.
Qed.

(** C5, as the code has it. For a field map without a field named
    [__proto__], and disclosed names of which any that objects inherit
    ([constructor], [toString], ...) is a field of the map, the proof is the
    JSON text of a sorted list: the leaf digests of the disclosed names that
    are fields (one per occurrence of the name) together with the leaf
    digests of all fields that are not disclosed. *)
Theorem generateMerkleProof_contents (allFields : list (string * Value))
    (disclosedFieldNames : list string) :
  NoDup allFields.*1 →
  "__proto__" ∉ allFields.*1 →
  (∀ name, name ∈ disclosedFieldNames → name ∈ Js.prototypeMembers →
           name ∈ allFields.*1) →
  ∃ digests : list string,
    proof (generateMerkleProof allFields disclosedFieldNames)
      = JSON_stringify (VArray (VString <$> digests)) ∧
    Sorted String.le digests ∧
    digests ≡ₚ disclosedDigests allFields disclosedFieldNames
               ++ hiddenDigests allFields disclosedFieldNames.
Proof.
  intros Hnd Hproto Hmem.
  exists (Js.sort (disclosedDigests allFields disclosedFieldNames
                   ++ hiddenDigests allFields disclosedFieldNames)).
  split_and!.
  - cbn [generateMerkleProof proof].
    rewrite (proofHashesOf_digests allFields disclosedFieldNames Hnd Hproto Hmem).
    by rewrite <- list_fmap_compose.
  - apply sort_Sorted.
  - apply sort_Permutation.
Qed.

End MerkleTheorems.

(** ** Commitments *)

Ltac unfold_monad :=
  unfold run, mbind, mret, M_bind, M_ret, result_bind, result_ret, lift, try_catch in *.

Lemma append_length (s1 s2 : string) :
  String.length (s1 +:+ s2) = (String.length s1 + String.length s2)%nat.
Proof. induction s1 as [|c s1 IH]; simpl; [done|]. by f_equal. Qed.

Lemma append_inv_tail (s1 s2 n : string) : s1 +:+ n = s2 +:+ n → s1 = s2.
Proof.
  revert s2. induction s1 as [|a s1 IH]; intros [|b s2] H; simpl in H.
  - done.
  - apply (f_equal String.length) in H. simpl in H. rewrite !append_length in H. simpl in H. lia.
  - apply (f_equal String.length) in H. simpl in H. rewrite !append_length in H. simpl in H. lia.
  - injection H as -> H. f_equal. by apply IH.
Qed.

Lemma prefix_0x_inj (h1 h2 : string) : "0x" +:+ h1 = "0x" +:+ h2 → h1 = h2.
Proof. intros H. change (String "0" (String "x" h1) = String "0" (String "x" h2)) in H. by injection H. Qed.

Section CommitmentTheorems.

Context `{J : Json}.

Lemma generateCommitment_given (P : Value) (n : string) (e : Entropy) :
  n ≠ EmptyString →
  generateCommitment P (Some n) e
  = Ok ({| commitment := "0x" +:+ Keccak.keccak256 (JSON_stringify P +:+ n); nonce := n |}, e).
Proof. intros Hn. destruct n as [|c n]; [done|]. reflexivity. Qed.

Lemma verifyCommitment_given (P : Value) (n expected : string) (e : Entropy) :
  n ≠ EmptyString →
  run (verifyCommitment P n expected) e
  = Ok (String.eqb ("0x" +:+ Keccak.keccak256 (JSON_stringify P +:+ n))
                   (Js.toLowerCase expected)).
Proof.
  intros Hn. unfold verifyCommitment, run, mbind, M_bind.
  rewrite generateCommitment_given by done. cbn [commitment mret M_ret].
  by rewrite toLowerCase_0x by apply keccak256_lowerHex.
Qed.

(** C6, as the code has it. With a non-empty nonce [n], the commitment that
    [generateCommitment] returns for [P] and [n] verifies against [P] and
    [n]; it does not verify against a payload whose JSON text differs from
    that of [P], unless the two hashed messages collide under Keccak-256. *)
Theorem verifyCommitment_generateCommitment (P : Value) (n : string) (e e' : Entropy) :
  n ≠ EmptyString →
  ∃ c e1,
    generateCommitment P (Some n) e = Ok (c, e1) ∧ nonce c = n ∧
    run (verifyCommitment P n (commitment c)) e' = Ok true ∧
    ∀ P', JSON_stringify P' ≠ JSON_stringify P →
          noCollision (JSON_stringify P' +:+ n) (JSON_stringify P +:+ n) →
          run (verifyCommitment P' n (commitment c)) e' = Ok false.
Proof.
  intros Hn.
  exists {| commitment := "0x" +:+ Keccak.keccak256 (JSON_stringify P +:+ n); nonce := n |}, e.
  split; [exact (generateCommitment_given P n e Hn)|].
  split; [reflexivity|].
  cbn [commitment].
  assert (Hlow : Js.toLowerCase ("0x" +:+ Keccak.keccak256 (JSON_stringify P +:+ n))
                 = "0x" +:+ Keccak.keccak256 (JSON_stringify P +:+ n))
    by (apply toLowerCase_0x, keccak256_lowerHex).
  split.
  - rewrite (verifyCommitment_given P n _ e' Hn), Hlow.
    f_equal. apply String.eqb_refl.
  - intros P' Hne Hcol.
    rewrite (verifyCommitment_given P' n _ e' Hn), Hlow.
    f_equal. apply String.eqb_neq. intros Heq.
    apply Hne. apply (append_inv_tail _ _ n). apply Hcol.
    by apply prefix_0x_inj.
Qed.

End CommitmentTheorems.

(** ** [decryptEnvelope] and signatures *)

Section EnvelopeBasics.

Context `{J : Json} `{C : NodeCrypto} `{E : Elliptic}.

(** C9. [decryptEnvelope] returns a [DecryptionResult] on every input: what
    the [try] block returns, or, when anything in it throws, the result with
    [success: false] and the exception's message; a result with
    [success: false] always carries an error message. *)
Theorem decryptEnvelope_total (envelope : EncryptedEnvelope) (privateKey publicKey : string) :
  ∃ r : DecryptionResult,
    decryptEnvelope envelope privateKey publicKey = Ok r ∧
    match decryptEnvelope_try envelope privateKey publicKey with
    | Ok r' => r = r'
    | Throw message => r = {| success := false; data := None; error := Some message |}
    end ∧
    (success r = false → data r = None ∧ ∃ message, error r = Some message).
Proof.
  unfold decryptEnvelope, try_catch.
  destruct (decryptEnvelope_try envelope privateKey publicKey) as [r|message] eqn:Htry.
  - exists r. split_and!; [done..|].
    unfold decryptEnvelope_try in Htry.
    destruct (encryptedKeys envelope !! hashPublicKey publicKey) as [[|c w]|].
    + injection Htry as <-. cbn. eauto.
    + unfold_monad.
      destruct (decryptDEKWithPrivateKey _ _); [|done].
      destruct (decryptWithAES _ _ _ _); [|done].
      destruct (JSON_parse _); [|done].
      injection Htry as <-. cbn. done.
    + injection Htry as <-. cbn. eauto.
  - eexists. split_and!; [done..|]. cbn. eauto.
Qed.


End EnvelopeBasics.

(** ** Envelopes *)

Lemma foldM_nil {A B} (f : A → B → M A) (a : A) (e : Entropy) :
  foldM f a [] e = Ok (a, e).
Proof. reflexivity. Qed.

Lemma foldM_cons {A B} (f : A → B → M A) (a : A) (b : B) (l : list B) (e : Entropy) :
  foldM f a (b :: l) e
  = match f a b e with
    | Ok (a', e') => foldM f a' l e'
    | Throw message => Throw message
    end.
Proof. reflexivity. Qed.

Section EnvelopeTheorems.

Context `{J : Json} `{C : NodeCrypto} `{E : Elliptic}.

Lemma createEncryptedEnvelope_unfold (P : Value) (K : list string) (e : Entropy) :
  createEncryptedEnvelope P K e
  = match encryptWithAES (JSON_stringify P) (map e (seq 0 32)) (fun i => e (32 + i)%nat) with
    | Ok ((ciphertext, iv, authTag), e1) =>
        match foldM (wrapStep (map e (seq 0 32))) ∅ K e1 with
        | Ok (encryptedKeys, e2) =>
            Ok ({| encryptedData := ciphertext; iv := iv; authTag := authTag;
                   encryptedKeys := encryptedKeys |}, e2)
        | Throw message => Throw message
        end
    | Throw message => Throw message
    end.
Proof.
  unfold createEncryptedEnvelope, generateDEK, randomBytes. unfold_monad.
  destruct (encryptWithAES _ _ _) as [[[[c i] t] e1]|]; [|done].
  change (foldM _ ∅ K e1) with (foldM (wrapStep (map e (seq 0 32))) ∅ K e1).
  by destruct (foldM _ _ _ _) as [[m e2]|].
Qed.

(** Entries are only ever stored under the fingerprints of the recipients. *)
Lemma wrap_loop_other (dek : list byte) (K : list string) :
  ∀ (m m' : gmap string string) (e e' : Entropy),
    foldM (wrapStep dek) m K e = Ok (m', e') →
    ∀ fp, fp ∉ hashPublicKey <$> K → m' !! fp = m !! fp.
Proof.
  induction K as [|pub K IH]; intros m m' e e' Hrun fp Hfp.
  - rewrite foldM_nil in Hrun. by injection Hrun as <- _.
  - rewrite foldM_cons in Hrun.
    destruct (wrapStep dek m pub e) as [[m1 e1]|] eqn:Hstep; [|done].
    cbn in Hfp. apply not_elem_of_cons in Hfp as [Hne Hfp].
    rewrite (IH _ _ _ _ Hrun fp Hfp).
    unfold wrapStep in Hstep. unfold_monad.
    destruct (encryptDEKForParty dek pub None e) as [[w e0]|]; [|done].
    injection Hstep as <- _. by rewrite lookup_insert_ne.
Qed.

Lemma decryptEnvelope_missing (envelope : EncryptedEnvelope) (privateKey publicKey : string) :
  encryptedKeys envelope !! hashPublicKey publicKey = None →
  decryptEnvelope envelope privateKey publicKey = Ok notAuthorized.
Proof. intros H. unfold decryptEnvelope, decryptEnvelope_try. by rewrite H. Qed.

Context `{!JsonLaws} `{!NodeCryptoLaws} `{!EllipticLaws}.

Lemma encryptWithAES_ok (data : string) (key : list byte) (e : Entropy) :
  length key = 32%nat →
  ∃ c i t e',
    encryptWithAES data key e = Ok ((c, i, t), e') ∧
    decryptWithAES c key i t = Ok data ∧
    lowerHex c ∧ lowerHex i ∧ lowerHex t.
Proof.
  intros Hlen. unfold encryptWithAES, decryptWithAES, randomBytes. unfold_monad.
  destruct (aes256gcm_round_trip key (map e (seq 0 12)) (Js.utf8 data) Hlen)
    as (ct & tag & Henc & Hdec).
  rewrite Henc. eexists _, _, _, _. split; [reflexivity|].
  rewrite !hex_round_trip, Hdec, utf8_round_trip.
  split_and!; [done|apply toString_lowerHex..].
Qed.

Lemma encryptDEKForParty_ok (dek : list byte) (pub : string) (e : Entropy) :
  wellFormedPublicKey pub →
  ∃ w e', encryptDEKForParty dek pub None e = Ok (w, e') ∧ opens dek pub w.
Proof.
  intros (kp & Hkp & Hpub).
  unfold encryptDEKForParty, genKeyPair. unfold_monad.
  pose proof (genKeyPair_valid e) as Heph.
  destruct (ec_genKeyPair e) as [eph e0]. cbn in Heph.
  rewrite Hpub.
  destruct (derive_agree eph kp Heph Hkp) as (secret & Hd1 & Hd2).
  rewrite Hd1.
  destruct (encryptWithAES_ok (Hex.toString dek) (sha256 secret) e0 (sha256_length _))
    as (c & i & t & e1 & Henc & Hdec & Hc & Hi & Ht).
  rewrite Henc. eexists _, _. split; [reflexivity|]. split.
  - apply stringify_nonempty.
  - intros privateKey k Hpriv Hk Hpub'.
    assert (Hsame : ec_getPublic k = ec_getPublic kp) by congruence.
    unfold decryptDEKWithPrivateKey. unfold_monad.
    rewrite wrappedKey_round_trip by (try done; apply encodePoint_hex).
    cbn. rewrite Hpriv. rewrite (keyFromPublic_hex eph Heph).
    destruct (derive_agree eph k Heph Hk) as (secret' & Hd1' & Hd2').
    rewrite Hsame, Hd1 in Hd1'. injection Hd1' as <-.
    rewrite Hd2', Hdec. by rewrite hex_round_trip.
Qed.

(** After the loop every recipient's fingerprint holds an entry that opens
    for some recipient with that fingerprint. *)
Lemma wrap_loop_ok (dek : list byte) (K : list string) :
  Forall wellFormedPublicKey K →
  ∀ (m : gmap string string) (e : Entropy),
    ∃ m' e',
      foldM (wrapStep dek) m K e = Ok (m', e') ∧
      ∀ pub, pub ∈ K →
        ∃ pub' w, pub' ∈ K ∧ hashPublicKey pub' = hashPublicKey pub ∧
                  m' !! hashPublicKey pub = Some w ∧ opens dek pub' w.
Proof.
  induction 1 as [|pub K Hwf HK IH]; intros m e.
  - exists m, e. split; [done|]. intros pub Hin. by apply elem_of_nil in Hin.
  - destruct (encryptDEKForParty_ok dek pub e Hwf) as (w & e0 & Hw & Hopens).
    destruct (IH (<[hashPublicKey pub := w]> m) e0) as (m' & e' & Hrun & Hall).
    exists m', e'. split.
    + rewrite foldM_cons. unfold wrapStep at 1. unfold_monad. by rewrite Hw.
    + intros q Hq. apply elem_of_cons in Hq as [->|Hq].
      * destruct (decide (hashPublicKey pub ∈ hashPublicKey <$> K)) as [Hin|Hout].
        -- apply list_elem_of_fmap in Hin as (q & Hfp & Hq).
           destruct (Hall q Hq) as (pub' & w' & Hin' & Hfp' & Hlook & Hopen').
           exists pub', w'. split_and!; [by right|congruence|by rewrite Hfp|done].
        -- exists pub, w. split_and!; [by left|done| |done].
           rewrite (wrap_loop_other _ _ _ _ _ _ Hrun _ Hout).
           apply lookup_insert_eq.
      * destruct (Hall q Hq) as (pub' & w' & Hin' & Hfp' & Hlook & Hopen').
        exists pub', w'. split_and!; [by right|done..].
Qed.

Lemma createEncryptedEnvelope_ok (P : Value) (K : list string) (e : Entropy) :
  Forall wellFormedPublicKey K →
  ∃ env e',
    createEncryptedEnvelope P K e = Ok (env, e') ∧
    (∀ fp, fp ∉ hashPublicKey <$> K → encryptedKeys env !! fp = None) ∧
    ∃ dek,
      decryptWithAES (encryptedData env) dek (iv env) (authTag env) = Ok (JSON_stringify P) ∧
      ∀ pub, pub ∈ K →
        ∃ pub' w, pub' ∈ K ∧ hashPublicKey pub' = hashPublicKey pub ∧
                  encryptedKeys env !! hashPublicKey pub = Some w ∧ opens dek pub' w.
Proof.
  intros HK. rewrite createEncryptedEnvelope_unfold.
  set (dek := map e (seq 0 32)).
  assert (Hlen : length dek = 32%nat) by (unfold dek; by rewrite length_map, length_seq).
  destruct (encryptWithAES_ok (JSON_stringify P) dek (fun i => e (32 + i)%nat) Hlen)
    as (c & i & t & e1 & Henc & Hdec & _).
  rewrite Henc.
  destruct (wrap_loop_ok dek K HK ∅ e1) as (m' & e2 & Hrun & Hall).
  rewrite Hrun. eexists _, _. split; [reflexivity|]. cbn. split.
  - intros fp Hfp. by rewrite (wrap_loop_other _ _ _ _ _ _ Hrun _ Hfp).
  - by exists dek.
Qed.

(** C1. For a payload that survives [JSON.parse(JSON.stringify(P))], a list
    [K] of well-formed public keys and a key pair whose public key is in [K]
    (no other key of [K] sharing its fingerprint while naming another
    point), [createEncryptedEnvelope] returns an envelope and
    [decryptEnvelope] opens it with the pair's keys, returning [P]. *)
Theorem decryptEnvelope_createEncryptedEnvelope (P : Value) (K : list string)
    (kp : KeyPair) (e : Entropy) :
  JSON_parse (JSON_stringify P) = Ok P →
  Forall wellFormedPublicKey K →
  isKeyPair kp →
  publicKey kp ∈ K →
  (∀ pub', pub' ∈ K → hashPublicKey pub' = hashPublicKey (publicKey kp) →
           ec_keyFromPublic pub' = ec_keyFromPublic (publicKey kp)) →
  ∃ env e',
    createEncryptedEnvelope P K e = Ok (env, e') ∧
    decryptEnvelope env (privateKey kp) (publicKey kp)
    = Ok {| success := true; data := Some P; error := None |}.
Proof.
  intros HP HK (k & Hk & Hpriv & Hpub) Hin Hfp.
  destruct (createEncryptedEnvelope_ok P K e HK)
    as (env & e' & Hcreate & _ & dek & Hdata & Hall).
  exists env, e'. split; [done|].
  destruct (Hall _ Hin) as (pub' & w & Hin' & Hfp' & Hlook & Hne & Hopen).
  unfold decryptEnvelope, decryptEnvelope_try. rewrite Hlook.
  destruct w as [|c0 w]; [done|].
  rewrite (Hopen (privateKey kp) k Hpriv Hk) by (by rewrite (Hfp pub' Hin' Hfp')).
  unfold_monad. by rewrite Hdata, HP.
Qed.

(** C4. For a list [K] of well-formed public keys and a public key whose
    fingerprint is not the fingerprint of a key of [K],
    [createEncryptedEnvelope] returns an envelope and [decryptEnvelope]
    answers [success: false] with the error "Not authorized to decrypt this
    data" and no data, whatever the private key. *)
Theorem decryptEnvelope_not_authorized (P : Value) (K : list string)
    (privateKey publicKey : string) (e : Entropy) :
  Forall wellFormedPublicKey K →
  hashPublicKey publicKey ∉ hashPublicKey <$> K →
  ∃ env e',
    createEncryptedEnvelope P K e = Ok (env, e') ∧
    decryptEnvelope env privateKey publicKey
    = Ok {| success := false; data := None;
            error := Some "Not authorized to decrypt this data" |}.
Proof.
  intros HK Hfp.
  destruct (createEncryptedEnvelope_ok P K e HK) as (env & e' & Hcreate & Hnone & _).
  exists env, e'. split; [done|].
  apply decryptEnvelope_missing, Hnone, Hfp.
Qed.

(** C2, as the code has it. With an empty recipient list
    [createEncryptedEnvelope] does not fail: it returns an envelope that
    holds the encrypted payload (the three payload strings decrypt, under
    the data key drawn from the first 32 bytes of the tape, to the JSON text
    of [P]) and no wrapped key, and [decryptEnvelope] answers every key with
    "Not authorized to decrypt this data". *)
Theorem createEncryptedEnvelope_no_recipients (P : Value) (e : Entropy) :
  ∃ env e',
    createEncryptedEnvelope P [] e = Ok (env, e') ∧
    decryptWithAES (encryptedData env) (map e (seq 0 32)) (iv env) (authTag env)
      = Ok (JSON_stringify P) ∧
    encryptedKeys env = ∅ ∧
    ∀ privateKey publicKey,
      decryptEnvelope env privateKey publicKey = Ok notAuthorized.
Proof.
  rewrite createEncryptedEnvelope_unfold.
  set (dek := map e (seq 0 32)).
  assert (Hlen : length dek = 32%nat) by (unfold dek; by rewrite length_map, length_seq).
  destruct (encryptWithAES_ok (JSON_stringify P) dek (fun i => e (32 + i)%nat) Hlen)
    as (c & i & t & e1 & Henc & Hdec & _).
  rewrite Henc, foldM_nil. eexists _, _. split; [reflexivity|]. cbn.
  split; [exact Hdec|]. split; [done|].
  intros privateKey publicKey. by apply decryptEnvelope_missing.
Qed.

End EnvelopeTheorems.

(** ** The executable instances satisfy the laws *)

Lemma append_nil_l (b : string) : EmptyString +:+ b = b.
Proof. reflexivity. Qed.

Lemma append_cons (x : ascii) (a b : string) : String x a +:+ b = String x (a +:+ b).
Proof. reflexivity. Qed.

Lemma append_assoc (a b c : string) : (a +:+ b) +:+ c = a +:+ (b +:+ c).
Proof.
  induction a as [|x a IH]; [reflexivity|].
  rewrite !append_cons. by f_equal.
Qed.

Lemma escapeChar_plain (c : ascii) :
  JsonText.plainChar c = true → JsonText.escapeChar c = String c EmptyString.
Proof. destruct c as [[] [] [] [] [] [] [] []]; first [discriminate | reflexivity]. Qed.

Lemma escape_plain (s : string) :
  Js.string_forallb JsonText.plainChar s = true → JsonText.escape s = s.
Proof.
  induction s as [|c s IH]; [done|]. cbn [Js.string_forallb JsonText.escape].
  intros [Hc Hs]%andb_true_iff. by rewrite (escapeChar_plain c Hc), IH.
Qed.

Lemma parseStringBody_plainChar (c : ascii) (s : string) :
  JsonText.plainChar c = true →
  JsonText.parseStringBody (String c s)
  = match JsonText.parseStringBody s with
    | Some (str, rest) => Some (String c str, rest)
    | None => None
    end.
Proof. destruct c as [[] [] [] [] [] [] [] []]; first [discriminate | reflexivity]. Qed.

Lemma parseStringBody_plain (s rest : string) :
  Js.string_forallb JsonText.plainChar s = true →
  JsonText.parseStringBody (s +:+ String JsonText.dquote rest) = Some (s, rest).
Proof.
  induction s as [|c s IH]; [reflexivity|]. cbn [Js.string_forallb].
  intros [Hc Hs]%andb_true_iff.
  change (String c s +:+ String JsonText.dquote rest)
    with (String c (s +:+ String JsonText.dquote rest)).
  by rewrite (parseStringBody_plainChar c _ Hc), IH.
Qed.

Lemma lowerHex_plainChar (c : ascii) : Hex.isLowerHex c = true → JsonText.plainChar c = true.
Proof. destruct c as [[] [] [] [] [] [] [] []]; first [discriminate | reflexivity]. Qed.

Lemma lowerHex_plain (s : string) :
  lowerHex s → Js.string_forallb JsonText.plainChar s = true.
Proof.
  unfold lowerHex. induction s as [|c s IH]; [done|]. cbn [Js.string_forallb].
  intros [Hc Hs]%andb_true_iff. by rewrite (lowerHex_plainChar c Hc), IH.
Qed.

(** The text of a member [key: "value"] followed by [rest]. *)
Definition memberText (key value rest : string) : string :=
  String JsonText.dquote (key +:+ String JsonText.dquote
    (String ":" (String JsonText.dquote (value +:+ String JsonText.dquote rest)))).

Lemma parseMembers_more (fuel : nat) (key value rest : string) :
  Js.string_forallb JsonText.plainChar key = true →
  Js.string_forallb JsonText.plainChar value = true →
  JsonText.parseMembers (S (S fuel)) (memberText key value (String "," rest))
  = match JsonText.parseMembers (S fuel) rest with
    | Some (members, rest') => Some ((key, VString value) :: members, rest')
    | None => None
    end.
Proof.
  intros Hk Hv. unfold memberText.
  cbn [JsonText.parseMembers]. rewrite Ascii.eqb_refl.
  rewrite (parseStringBody_plain key _ Hk).
  cbn [JsonText.parseValue]. rewrite Ascii.eqb_refl.
  by rewrite (parseStringBody_plain value _ Hv).
Qed.

Lemma parseMembers_last (fuel : nat) (key value rest : string) :
  Js.string_forallb JsonText.plainChar key = true →
  Js.string_forallb JsonText.plainChar value = true →
  JsonText.parseMembers (S (S fuel)) (memberText key value (String "}" rest))
  = Some ([(key, VString value)], rest).
Proof.
  intros Hk Hv. unfold memberText.
  cbn [JsonText.parseMembers]. rewrite Ascii.eqb_refl.
  rewrite (parseStringBody_plain key _ Hk).
  cbn [JsonText.parseValue]. rewrite Ascii.eqb_refl.
  by rewrite (parseStringBody_plain value _ Hv).
Qed.

Lemma parseValue_object (fuel : nat) (rest : string) :
  JsonText.parseValue (S fuel) (String "{" (String JsonText.dquote rest))
  = match JsonText.parseMembers fuel (String JsonText.dquote rest) with
    | Some (members, rest') =>
        Some (VObject (fold_left (fun o '(k, v) => Js.obj_set k v o) members []), rest')
    | None => None
    end.
Proof. reflexivity. Qed.

Lemma stringify_wrappedKey (a b c d : string) :
  Js.string_forallb JsonText.plainChar a = true →
  Js.string_forallb JsonText.plainChar b = true →
  Js.string_forallb JsonText.plainChar c = true →
  Js.string_forallb JsonText.plainChar d = true →
  JsonText.stringify (wrappedKey a b c d)
  = String "{" (memberText "ephemeralPublicKey" a (String ","
      (memberText "encryptedDek" b (String ","
        (memberText "iv" c (String ","
          (memberText "authTag" d (String "}" EmptyString)))))))).
Proof.
  intros Ha Hb Hc Hd. unfold wrappedKey, memberText.
  cbn [JsonText.stringify map Js.joinWith]. unfold JsonText.quote.
  rewrite !escape_plain by (assumption || reflexivity).
  repeat (rewrite ?append_assoc, ?append_cons, ?append_nil_l; f_equal).
Qed.

#[global] Instance jsonText_laws : JsonLaws.
Proof.
  split.
  - intros v. destruct v as [|[]|n|s|items|fields]; try discriminate.
    cbn [JSON_stringify jsonText JsonText.stringify]. unfold Js.decimal, NilZero.string_of_int.
    destruct (Z.to_int n) as [[]|[]]; discriminate.
  - intros a b c d Ha%lowerHex_plain Hb%lowerHex_plain Hc%lowerHex_plain Hd%lowerHex_plain.
    cbn [JSON_stringify JSON_parse jsonText]. unfold JsonText.parse.
    rewrite (stringify_wrappedKey a b c d Ha Hb Hc Hd).
    set (body := memberText "ephemeralPublicKey" a _).
    assert (Hlen : ∃ fuel, String.length (String "{" body) = S (S (S (S (S (S (S (S (S fuel))))))))).
    { eexists. unfold body, memberText. cbn [String.length]. rewrite !append_cons.
      cbn [String.length]. reflexivity. }
    destruct Hlen as [fuel ->].
    unfold body. unfold memberText at 1. rewrite parseValue_object.
    fold (memberText "ephemeralPublicKey" a
            (String "," (memberText "encryptedDek" b (String ","
               (memberText "iv" c (String "," (memberText "authTag" d (String "}" EmptyString)))))))).
    rewrite parseMembers_more by done.
    rewrite parseMembers_more by done.
    rewrite parseMembers_more by done.
    rewrite parseMembers_last by done.
    reflexivity.
Qed.

Lemma bytes_eqb_refl (bs : list byte) : Toy.bytes_eqb bs bs = true.
Proof. induction bs as [|b bs IH]; [done|]. cbn. by rewrite Byte.byte_dec_lb, IH. Qed.

#[global] Instance toyCrypto_laws : NodeCryptoLaws.
Proof.
  split.
  - intros key iv plaintext Hlen. cbn [aes256gcm_encrypt aes256gcm_decrypt toyCrypto].
    unfold Toy.encrypt, Toy.decrypt. rewrite Hlen. cbn [Nat.eqb].
    eexists _, _. split; [reflexivity|].
    by rewrite bytes_eqb_refl, rev_involutive.
  - intros m. cbn [sha256 toyCrypto]. unfold Toy.hash32.
    rewrite length_take, length_app, repeat_length. lia.
Qed.

Lemma to_N_byteOfN (n : N) : Byte.to_N (Hex.byteOfN n) = n mod 256.
Proof.
  unfold Hex.byteOfN. destruct (Byte.of_N (n mod 256)) as [b|] eqn:Hb.
  - by apply Byte.to_of_N.
  - apply Byte.of_N_None_iff in Hb. pose proof (N.mod_upper_bound n 256). lia.
Qed.

Lemma scalarMul_comm (a b g : byte) :
  Toy.scalarMul a (Toy.scalarMul b g) = Toy.scalarMul b (Toy.scalarMul a g).
Proof.
  unfold Toy.scalarMul. rewrite !to_N_byteOfN. unfold Hex.byteOfN.
  rewrite !N.Div0.mul_mod_idemp_r.
  by replace (Byte.to_N a * (Byte.to_N b * Byte.to_N g))
    with (Byte.to_N b * (Byte.to_N a * Byte.to_N g)) by lia.
Qed.

Lemma keyFromHex_toString (what : string) (k : byte) :
  Toy.keyFromHex what (Hex.toString [k]) = Ok k.
Proof. unfold Toy.keyFromHex. by rewrite hex_round_trip. Qed.

#[global] Instance toyElliptic_laws : EllipticLaws.
Proof.
  split.
  - done.
  - intros k _. apply keyFromHex_toString.
  - intros k _. apply keyFromHex_toString.
  - intros p. apply toString_lowerHex.
  - intros a b _ _. eexists. split; [reflexivity|].
    cbn [ec_derive ec_getPublic toyElliptic]. by rewrite scalarMul_comm.
  - intros k hash _. eexists. split; [reflexivity|].
    cbn [ec_verify ec_getPublic toyElliptic]. unfold Toy.verify.
    by rewrite String.eqb_refl.
Qed.

(** ** The verification route *)

Section RouteTheorems.

Context `{J : Json}.

(** Every answer with status 200 says [valid: true]. *)
Lemma verify_always_valid (requestBody : Value) :
  Disclosures.status (Disclosures.verify requestBody) = 200%nat →
  property (Disclosures.body (Disclosures.verify requestBody)) "valid" = Some (VBool true).
Proof.
  unfold Disclosures.verify.
  destruct (Disclosures.verifyDisclosureSchema requestBody) as [request|]; [|done].
  unfold Disclosures.verify_try. unfold_monad.
  destruct (JSON_parse _) as [[]|]; done.
Qed.

End RouteTheorems.

(** C3, where the code departs from it. The handler is given the amount
    500001 with an empty proof and the root of a tree built for the amount
    500000: the root reconstructed as the specification describes differs
    from the expected root, and the handler answers 200 with [valid: true]. *)
Theorem verify_accepts_tampered_disclosure :
  Spec.verifyDisclosure [("amount", VNumber 500001)] []
    (root (buildMerkleTree [("amount", VNumber 500000)])) = false ∧
  Disclosures.status (Disclosures.verify tamperedRequest) = 200%nat ∧
  property (Disclosures.body (Disclosures.verify tamperedRequest)) "valid"
  = Some (VBool true).
Proof. vm_compute. done. Qed.

(** ** Concrete runs *)

Lemma createEncryptedEnvelope_no_recipients_counterexample :
  ∃ env, run (createEncryptedEnvelope (VObject tradePayload) []) countingTape = Ok env ∧
         encryptedKeys env = ∅.
Proof. vm_compute. eexists. split; reflexivity. Qed.

Lemma createEncryptedEnvelope_no_recipients_witness :
  ∃ env e',
    createEncryptedEnvelope (VObject tradePayload) [] countingTape = Ok (env, e') ∧
    decryptWithAES (encryptedData env) (map countingTape (seq 0 32)) (iv env) (authTag env)
      = Ok (JSON_stringify (VObject tradePayload)) ∧
    encryptedKeys env = ∅ ∧
    ∀ privateKey publicKey,
      decryptEnvelope env privateKey publicKey = Ok notAuthorized.
Proof.
  exact (createEncryptedEnvelope_no_recipients (VObject tradePayload) countingTape).
Defined.

Lemma decryptEnvelope_createEncryptedEnvelope_witness :
  ∃ env e',
    createEncryptedEnvelope (VObject tradePayload) sampleRecipients countingTape
      = Ok (env, e') ∧
    decryptEnvelope env (privateKey sampleKeyPair) (publicKey sampleKeyPair)
    = Ok {| success := true; data := Some (VObject tradePayload); error := None |}.
Proof.
  apply (decryptEnvelope_createEncryptedEnvelope
           (VObject tradePayload) sampleRecipients sampleKeyPair countingTape).
  - vm_compute. reflexivity.
  - apply Forall_cons. split; [exists x05; split; reflexivity|].
    apply Forall_cons. split; [exists x0a; split; reflexivity|]. apply Forall_nil_2.
  - exists x05. split; [reflexivity|]. split; reflexivity.
  - apply elem_of_cons; by left.
  - intros pub' Hin Hfp. apply elem_of_cons in Hin as [->|Hin]; [reflexivity|].
    apply list_elem_of_singleton in Hin as ->. vm_compute in Hfp. discriminate Hfp.
Defined.

Lemma decryptEnvelope_not_authorized_witness :
  ∃ env e',
    createEncryptedEnvelope (VObject tradePayload) sampleRecipients countingTape
      = Ok (env, e') ∧
    decryptEnvelope env "07" "15"
    = Ok {| success := false; data := None;
            error := Some "Not authorized to decrypt this data" |}.
Proof.
  apply (decryptEnvelope_not_authorized
           (VObject tradePayload) sampleRecipients "07" "15" countingTape).
  - apply Forall_cons. split; [exists x05; split; reflexivity|].
    apply Forall_cons. split; [exists x0a; split; reflexivity|]. apply Forall_nil_2.
  - intros Hin. apply elem_of_cons in Hin as [Hfp|Hin].
    + vm_compute in Hfp. discriminate Hfp.
    + apply list_elem_of_singleton in Hin. vm_compute in Hin. discriminate Hin.
Defined.

Lemma generateMerkleProof_contents_counterexample :
  proofHashesOf tradePayload ["amount"]
  = Js.Data <$> Js.sort [leafHash "amount" (VNumber 500000); leafHash "buyer" (VString "Acme")] ∧
  proofHashesOf tradePayload ["amount"]
  ≠ Js.Data <$> Js.sort (hiddenDigests tradePayload ["amount"]).
Proof. split; [vm_compute; reflexivity|]. vm_compute. discriminate. Qed.

Lemma generateMerkleProof_contents_witness :
  ∃ digests : list string,
    proof (generateMerkleProof tradePayload ["amount"])
      = JSON_stringify (VArray (VString <$> digests)) ∧
    Sorted String.le digests ∧
    digests ≡ₚ disclosedDigests tradePayload ["amount"] ++ hiddenDigests tradePayload ["amount"].
Proof.
  apply (generateMerkleProof_contents tradePayload ["amount"]).
  - apply NoDup_cons. split; [|apply NoDup_singleton].
    intros Hin. apply list_elem_of_singleton in Hin. discriminate Hin.
  - intros Hin. apply elem_of_cons in Hin as [Hin|Hin]; [discriminate Hin|].
    apply list_elem_of_singleton in Hin. discriminate Hin.
  - intros name Hname Hmember. apply list_elem_of_singleton in Hname as ->.
    apply elem_of_cons. by left.
Defined.

Lemma verifyCommitment_generateCommitment_counterexample :
  run (c ← generateCommitment (VObject tradePayload) (Some EmptyString);
       verifyCommitment (VObject tradePayload) EmptyString (commitment c)) countingTape
  = Ok false.
Proof. vm_compute. reflexivity. Qed.

Lemma verifyCommitment_generateCommitment_witness :
  ∃ c e1,
    generateCommitment (VObject tradePayload) (Some "n1") countingTape = Ok (c, e1) ∧
    nonce c = "n1" ∧
    run (verifyCommitment (VObject tradePayload) "n1" (commitment c)) countingTape = Ok true ∧
    ∀ P', JSON_stringify P' ≠ JSON_stringify (VObject tradePayload) →
          noCollision (JSON_stringify P' +:+ "n1")
                      (JSON_stringify (VObject tradePayload) +:+ "n1") →
          run (verifyCommitment P' "n1" (commitment c)) countingTape = Ok false.
Proof.
  apply (verifyCommitment_generateCommitment (VObject tradePayload) "n1"
           countingTape countingTape).
  discriminate.
Defined.

Lemma buildMerkleTree_root_order_independent_witness :
  root (buildMerkleTree tradePayload)
  = root (buildMerkleTree [("buyer", VString "Acme"); ("amount", VNumber 500000)]) ∧
  (tradePayload ≠ [] →
   ∃ sorted : list string,
     Sorted String.le sorted ∧ sorted ≡ₚ leafDigests tradePayload ∧
     root (buildMerkleTree tradePayload) = "0x" +:+ Keccak.keccak256 (Js.join sorted)).
Proof.
  apply (buildMerkleTree_root_order_independent tradePayload
           [("buyer", VString "Acme"); ("amount", VNumber 500000)]).
  apply perm_swap.
Defined.



(** * Further properties of the service *)

(** ** Fingerprints *)

Lemma substring0_length (n : nat) (s : string) :
  (n ≤ String.length s)%nat → String.length (Js.substring0 n s) = n.
Proof.
  unfold Js.substring0. revert s. induction n as [|n IH]; intros s Hn.
  - by destruct s.
  - destruct s as [|c s]; cbn in Hn; [lia|]. cbn. f_equal. apply IH. lia.
Qed.

Lemma substring0_forallb (p : ascii → bool) (n : nat) (s : string) :
  Js.string_forallb p s = true → Js.string_forallb p (Js.substring0 n s) = true.
Proof.
  unfold Js.substring0. revert s. induction n as [|n IH]; intros s Hs.
  - by destruct s.
  - destruct s as [|c s]; [done|]. cbn in *.
    apply andb_true_iff in Hs as [-> Hs]. by apply IH.
Qed.

Lemma toString_length (bs : list byte) :
  String.length (Hex.toString bs) = (2 * length bs)%nat.
Proof. induction bs as [|b bs IH]; [done|]. cbn. rewrite IH. lia. Qed.

Lemma digest_length (m : list byte) : length (Keccak.digest m) = 32%nat.
Proof.
  with_strategy transparent [Keccak.digest]
    (unfold Keccak.digest; by rewrite length_map, length_seq).
Qed.

Lemma keccak256_bytes_length (m : list byte) :
  String.length (Keccak.keccak256_bytes m) = 64%nat.
Proof. unfold Keccak.keccak256_bytes. by rewrite toString_length, digest_length. Qed.

Lemma hexValue_lowerChar (c : ascii) : Hex.hexValue (Js.lowerChar c) = Hex.hexValue c.
Proof. destruct c as [[] [] [] [] [] [] [] []]; reflexivity. Qed.

Lemma from_toLowerCase (s : string) : Hex.from (Js.toLowerCase s) = Hex.from s.
Proof.
  enough (H : Hex.from (Js.toLowerCase s) = Hex.from s ∧
              ∀ c, Hex.from (Js.toLowerCase (String c s)) = Hex.from (String c s)) by apply H.
  induction s as [|b s [IH1 IH2]].
  - split; [done|]. intros c. reflexivity.
  - split; [apply IH2|]. intros c.
    cbn [Js.toLowerCase Js.string_map Hex.from]. fold (Js.toLowerCase s).
    rewrite !hexValue_lowerChar, IH1. reflexivity.
Qed.

Lemma from_not_hex (s : string) : startsWithHexPair s = false → Hex.from s = [].
Proof.
  destruct s as [|a [|b s]]; [done..|]. cbn.
  by destruct (Hex.hexValue a), (Hex.hexValue b).
Qed.

Section FingerprintTheorems.

(** X1. The fingerprint of any text, well formed or not, is exactly 40
    lower-case hexadecimal digits. *)
Theorem hashPublicKey_format (publicKey : string) :
  String.length (hashPublicKey publicKey) = 40%nat ∧ lowerHex (hashPublicKey publicKey).
Proof.
  unfold hashPublicKey. split.
  - apply substring0_length. rewrite keccak256_bytes_length. lia.
  - apply substring0_forallb, toString_lowerHex.
Qed.

(** X2. The fingerprint does not depend on the letter case of the
    hexadecimal digits of the key. *)
Theorem hashPublicKey_toLowerCase (publicKey : string) :
  hashPublicKey (Js.toLowerCase publicKey) = hashPublicKey publicKey.
Proof. unfold hashPublicKey. by rewrite from_toLowerCase. Qed.

(** X3. Every text that does not begin with two hexadecimal digits (a key
    written with a 0x prefix, the empty string, any other text) has one and
    the same fingerprint, that of the empty buffer. *)
Theorem hashPublicKey_not_hex (publicKey : string) :
  startsWithHexPair publicKey = false → hashPublicKey publicKey = emptyFingerprint.
Proof.
  intros H. unfold hashPublicKey. rewrite (from_not_hex _ H).
  vm_compute. reflexivity.
Qed.

End FingerprintTheorems.

Lemma hashPublicKey_not_hex_witness :
  startsWithHexPair "0x04ab" = false ∧ hashPublicKey "0x04ab" = emptyFingerprint.
Proof. split; [reflexivity|]. apply (hashPublicKey_not_hex "0x04ab"). reflexivity. Defined.

(** ** Commitments *)

Section CommitmentExtras.

Context `{J : Json}.

Lemma keccak256_length (m : string) : String.length (Keccak.keccak256 m) = 64%nat.
Proof. apply keccak256_bytes_length. Qed.

Lemma generateCommitment_fresh (P : Value) (nonce : option string) (e : Entropy) :
  nonce = None ∨ nonce = Some EmptyString →
  generateCommitment P nonce e
  = Ok ({| commitment := "0x" +:+ Keccak.keccak256
                           (JSON_stringify P +:+ Hex.toString (map e (seq 0 32)));
           nonce := Hex.toString (map e (seq 0 32)) |},
        fun i => e (32 + i)%nat).
Proof. intros [-> | ->]; reflexivity. Qed.

(** X4. Whatever the payload and the nonce, the commitment is the two
    characters 0x followed by 64 lower-case hexadecimal digits; a given
    non-empty nonce is returned as it is and no randomness is drawn, and
    otherwise the returned nonce is the 64 hexadecimal digits of 32 fresh
    bytes. *)
Theorem generateCommitment_format (P : Value) (given : option string) (e : Entropy) :
  ∃ c e' h,
    generateCommitment P given e = Ok (c, e') ∧
    commitment c = "0x" +:+ h ∧ String.length h = 64%nat ∧ lowerHex h ∧
    match given with
    | Some (String a n) => nonce c = String a n ∧ e' = e
    | _ => nonce c = Hex.toString (map e (seq 0 32)) ∧
           String.length (nonce c) = 64%nat ∧ lowerHex (nonce c)
    end.
Proof.
  assert (Hlen : String.length (Hex.toString (map e (seq 0 32))) = 64%nat)
    by (by rewrite toString_length, length_map, length_seq).
  destruct given as [[|a n]|].
  - eexists _, _, _. split; [by apply generateCommitment_fresh; right|]. cbn [commitment nonce].
    repeat split; first [reflexivity | apply keccak256_length | apply keccak256_lowerHex
                        | apply toString_lowerHex | exact Hlen].
  - eexists _, _, _. split; [by apply generateCommitment_given|]. cbn [commitment nonce].
    repeat split; first [reflexivity | apply keccak256_length | apply keccak256_lowerHex].
  - eexists _, _, _. split; [by apply generateCommitment_fresh; left|]. cbn [commitment nonce].
    repeat split; first [reflexivity | apply keccak256_length | apply keccak256_lowerHex
                        | apply toString_lowerHex | exact Hlen].
Qed.

End CommitmentExtras.

Section CommitmentRoundTrips.

Context `{J : Json}.

(** X5. A commitment generated without a nonce verifies against the payload
    and the nonce that [generateCommitment] returned with it. *)
Theorem verifyCommitment_fresh_nonce (P : Value) (e e' : Entropy) :
  ∃ c e1,
    generateCommitment P None e = Ok (c, e1) ∧
    run (verifyCommitment P (nonce c) (commitment c)) e' = Ok true.
Proof.
  eexists _, _. split; [by apply generateCommitment_fresh; left|].
  cbn [nonce commitment].
  assert (Hne : Hex.toString (map e (seq 0 32)) ≠ EmptyString).
  { intros H. apply (f_equal String.length) in H.
    rewrite toString_length, length_map, length_seq in H. discriminate H. }
  rewrite (verifyCommitment_given P _ _ e' Hne).
  rewrite toLowerCase_0x by apply keccak256_lowerHex.
  f_equal. apply String.eqb_refl.
Qed.

(** X6. Verification compares without regard to letter case: with a
    non-empty nonce, every text that equals the commitment once put in lower
    case verifies. *)
Theorem verifyCommitment_ignores_case (P : Value) (n expected : string) (e e' : Entropy) :
  n ≠ EmptyString →
  (∃ c e1, generateCommitment P (Some n) e = Ok (c, e1) ∧
           Js.toLowerCase expected = commitment c) →
  run (verifyCommitment P n expected) e' = Ok true.
Proof.
  intros Hn (c & e1 & Hgen & Hlow).
  rewrite (generateCommitment_given P n e Hn) in Hgen. injection Hgen as <- _.
  cbn [commitment] in Hlow.
  rewrite (verifyCommitment_given P n expected e' Hn), Hlow.
  f_equal. apply String.eqb_refl.
Qed.

End CommitmentRoundTrips.

(** ** The disclosure tree and its proofs *)

Section DisclosureExtras.

Context `{J : Json}.

Lemma collectDisclosedFields_lookup (allFields : list (string * Value))
    (names : list string) (name : string)
    (disclosedFields0 : list (string * Js.Any Value) * bool) :
  name ≠ "__proto__" →
  Js.obj_get name
    (fold_left (fun disclosedFields fieldName =>
                  match Js.get fieldName allFields with
                  | Js.Undefined => disclosedFields
                  | x => assignDisclosed fieldName x disclosedFields
                  end) names disclosedFields0).1
  = if Js.includes name names
    then match Js.get name allFields with
         | Js.Undefined => Js.obj_get name disclosedFields0.1
         | x => Some x
         end
    else Js.obj_get name disclosedFields0.1.
Proof.
  intros Hname. revert disclosedFields0.
  induction names as [|n names IH]; intros [own inherited]; [done|].
  cbn [fold_left]. rewrite IH. unfold Js.includes. cbn [existsb].
  fold (Js.includes name names).
  assert (Hstep : ∀ x, Js.obj_get name (assignDisclosed n x (own, inherited)).1
                       = if String.eqb name n then Some x else Js.obj_get name own).
  { intros x. unfold assignDisclosed.
    destruct (String.eqb_spec n "__proto__") as [->|Hn]; cbn [andb].
    - destruct (String.eqb_spec name "__proto__") as [|_]; [done|].
      destruct inherited; [by destruct (prototypeSetter x)|].
      cbn [fst]. rewrite obj_get_define. by destruct (String.eqb_spec name "__proto__").
    - cbn [fst]. apply obj_get_define. }
  destruct (String.eqb_spec name n) as [->|Hne]; cbn [orb].
  - destruct (Js.get n allFields) as [v| |member|] eqn:Hget;
      rewrite ?Hstep, ?String.eqb_refl; by destruct (Js.includes n names).
  - destruct (Js.get n allFields) as [v| |member|] eqn:Hget; rewrite ?Hstep; done.
Qed.

(** X7. Of every name but [__proto__], [generateMerkleProof] discloses what
    reading that name from the field map gives when the name is requested,
    and nothing otherwise: a requested field is disclosed with its value, a
    requested name that is no field but is inherited by every object
    ([constructor], [toString], ...) is disclosed as the inherited function,
    any other requested name is skipped, and no field that was not requested
    is disclosed. *)
Theorem generateMerkleProof_disclosedFields (allFields : list (string * Value))
    (disclosedFieldNames : list string) (name : string) :
  name ≠ "__proto__" →
  Js.obj_get name (disclosedFields (generateMerkleProof allFields disclosedFieldNames))
  = if Js.includes name disclosedFieldNames
    then match Js.obj_get name allFields with
         | Some v => Some (Js.Data v)
         | None => if Js.includes name Js.prototypeMembers then Some (Js.Builtin name)
                   else None
         end
    else None.
Proof.
  intros Hname. cbn [generateMerkleProof disclosedFields]. unfold collectDisclosedFields.
  rewrite (collectDisclosedFields_lookup allFields disclosedFieldNames name ([], true) Hname).
  cbn [fst Js.obj_get]. destruct (Js.includes name disclosedFieldNames); [|done].
  unfold Js.get. destruct (Js.obj_get name allFields) as [v|]; [done|].
  destruct (String.eqb_spec name "__proto__"); [done|].
  by destruct (Js.includes name Js.prototypeMembers).
Qed.

(** X8. In the tree of a field map, [leaves] holds the leaf digest of every
    field but one named [__proto__], whose digest enters the root all the
    same: looking a name up among the own properties of [leaves] gives the
    leaf digest of that field's value, and nothing when the name is no field
    or is [__proto__]. *)
Theorem buildMerkleTree_leaves_lookup (fields : list (string * Value)) (name : string) :
  NoDup fields.*1 →
  leaves (buildMerkleTree fields)
    ≡ₚ leafEntries (List.filter (fun '(k, _) => negb (String.eqb k "__proto__")) fields) ∧
  Js.obj_get name (leaves (buildMerkleTree fields))
  = (if String.eqb name "__proto__" then None
     else leafHash name <$> Js.obj_get name fields) ∧
  (fields ≠ [] →
   root (buildMerkleTree fields)
   = "0x" +:+ Keccak.keccak256 (Js.join (Js.sort (leafDigests fields)))).
Proof.
  intros Hnd. rewrite buildMerkleTree_leaves. split_and!.
  - by rewrite (leaves_fold_Permutation fields []).
  - rewrite (leaves_fold_lookup fields [] name Hnd). cbn [Js.obj_get].
    destruct (String.eqb name "__proto__"); [done|].
    by destruct (Js.obj_get name fields).
  - intros Hne. destruct fields as [|f fields]; [done|]. apply buildMerkleTree_root_cons.
Qed.

Lemma filter_key_single (fields : list (string * Value)) (name : string) :
  NoDup fields.*1 →
  List.filter (fun '(k, _) => String.eqb k name) fields
  = match Js.obj_get name fields with
    | Some v => [(name, v)]
    | None => []
    end.
Proof.
  induction fields as [|[k v] fields IH]; [done|]. cbn.
  intros [Hk Hnd]%NoDup_cons.
  rewrite String.eqb_sym.
  destruct (String.eqb_spec name k) as [->|Hne].
  - rewrite (IH Hnd).
    apply obj_get_None_keys in Hk. by rewrite Hk.
  - by apply IH.
Qed.

Lemma disclosedDigests_filter (fields : list (string * Value)) (names : list string) :
  NoDup fields.*1 → NoDup names →
  disclosedDigests fields names
  ≡ₚ leafDigests (List.filter (fun '(k, _) => Js.includes k names) fields).
Proof.
  intros Hf. induction 1 as [|n names Hn Hnd IH]; cbn.
  - induction fields as [|[k v] fields IHf]; [done|]. cbn. apply IHf.
    by apply NoDup_cons in Hf as [_ ?].
  - rewrite IH. clear IH.
    transitivity (leafDigests (List.filter (fun '(k, _) => String.eqb k n) fields
                               ++ List.filter (fun '(k, _) => Js.includes k names) fields)).
    + unfold leafDigests. rewrite map_app. apply Permutation_app; [|done].
      rewrite (filter_key_single fields n Hf).
      by destruct (Js.obj_get n fields).
    + apply leafDigests_Permutation.
      assert (Hn' : Js.includes n names = false).
      { apply not_true_is_false. by rewrite includes_elem_of. }
      clear Hf Hnd Hn. induction fields as [|[k v] fields IHf]; [done|]. cbn.
      unfold Js.includes at 3. cbn [existsb]. fold (Js.includes k names).
      destruct (String.eqb_spec k n) as [->|Hne]; cbn [orb].
      * rewrite Hn'. cbn. by f_equiv.
      * destruct (Js.includes k names); cbn.
        -- rewrite <- Permutation_middle. by f_equiv.
        -- done.
Qed.

Lemma filter_partition (fields : list (string * Value)) (p : string → bool) :
  List.filter (fun '(k, _) => p k) fields ++ List.filter (fun '(k, _) => negb (p k)) fields
  ≡ₚ fields.
Proof.
  induction fields as [|[k v] fields IH]; [done|]. cbn.
  destruct (p k); cbn.
  - by f_equiv.
  - rewrite <- Permutation_middle. by f_equiv.
Qed.

Lemma all_digests (allFields : list (string * Value)) (names : list string) :
  NoDup allFields.*1 → NoDup names →
  Js.sort (disclosedDigests allFields names ++ hiddenDigests allFields names)
  = Js.sort (leafDigests allFields).
Proof.
  intros Hf Hn. apply sort_unique. rewrite (disclosedDigests_filter _ _ Hf Hn).
  unfold hiddenDigests, leafDigests. rewrite <- map_app.
  apply Permutation_map.
  apply (filter_partition allFields (fun k => Js.includes k names)).
Qed.

(** X9. For a field map without a field named [__proto__], and names none
    of which is requested twice or is inherited without being a field, the
    proof is the sorted list of all leaf digests of the field map, whichever
    fields are disclosed; hashing its concatenation gives the root of a
    non-empty map. *)
Theorem proofHashesOf_all_leaves (allFields : list (string * Value))
    (disclosedFieldNames : list string) :
  NoDup allFields.*1 →
  "__proto__" ∉ allFields.*1 →
  (∀ name, name ∈ disclosedFieldNames → name ∈ Js.prototypeMembers →
           name ∈ allFields.*1) →
  NoDup disclosedFieldNames →
  ∃ digests : list string,
    digests = Js.sort (leafDigests allFields) ∧
    proofHashesOf allFields disclosedFieldNames = Js.Data <$> digests ∧
    proof (generateMerkleProof allFields disclosedFieldNames)
      = JSON_stringify (VArray (VString <$> digests)) ∧
    (allFields ≠ [] →
     "0x" +:+ Keccak.keccak256 (Js.join digests) = root (buildMerkleTree allFields)).
Proof.
  intros Hf Hproto Hmem Hn. eexists. split; [reflexivity|].
  assert (Hall : proofHashesOf allFields disclosedFieldNames
                 = Js.Data <$> Js.sort (leafDigests allFields)).
  { rewrite (proofHashesOf_digests allFields disclosedFieldNames Hf Hproto Hmem).
    by rewrite (all_digests allFields disclosedFieldNames Hf Hn). }
  split_and!.
  - exact Hall.
  - cbn [generateMerkleProof proof]. rewrite Hall. by rewrite <- list_fmap_compose.
  - intros Hne. destruct allFields as [|f fs]; [done|]. by rewrite buildMerkleTree_root_cons.
Qed.

Lemma proofHashes_keep (allFields : list (string * Value)) (leaves : list (string * string))
    (names : list string) (acc : list (Js.Any string)) (x : Js.Any string) :
  x ∈ acc →
  x ∈ fold_left (fun proofHashes fieldName =>
                   match Js.get fieldName allFields with
                   | Js.Undefined => proofHashes
                   | _ => proofHashes ++ [Js.get fieldName leaves]
                   end) names acc.
Proof.
  revert acc. induction names as [|n names IH]; intros acc Hx; [done|].
  cbn [fold_left]. apply IH.
  destruct (Js.get n allFields); try done; apply elem_of_app; by left.
Qed.

Lemma proofHashes_push (allFields : list (string * Value)) (leaves : list (string * string))
    (names : list string) (acc : list (Js.Any string)) (name : string) :
  name ∈ names →
  Js.get name allFields ≠ Js.Undefined →
  Js.get name leaves
  ∈ fold_left (fun proofHashes fieldName =>
                 match Js.get fieldName allFields with
                 | Js.Undefined => proofHashes
                 | _ => proofHashes ++ [Js.get fieldName leaves]
                 end) names acc.
Proof.
  revert acc. induction names as [|n names IH]; intros acc Hin Hget.
  - by apply elem_of_nil in Hin.
  - cbn [fold_left]. apply elem_of_cons in Hin as [->|Hin]; [|by apply IH].
    apply proofHashes_keep.
    destruct (Js.get n allFields); try done; apply elem_of_app; right;
      apply elem_of_cons; by left.
Qed.

(** X24. A requested name that every object inherits and that is no field
    of the map ([constructor], [toString], ...), or the name [__proto__]
    whether a field or not, passes the test [allFields[name] !== undefined]:
    the inherited member read from [leaves] is pushed among the digests, and
    the proof text holds [null] for a function, or [{}] for [__proto__], in
    its place. *)
Theorem generateMerkleProof_inherited_name (allFields : list (string * Value))
    (disclosedFieldNames : list string) (name : string) :
  name ∈ disclosedFieldNames →
  name ∈ Js.prototypeMembers →
  name = "__proto__" ∨ name ∉ allFields.*1 →
  let member : Js.Any string :=
    if String.eqb name "__proto__" then Js.ObjectPrototype else Js.Builtin name in
  member ∈ proofHashesOf allFields disclosedFieldNames ∧
  (if String.eqb name "__proto__" then VObject [] else VNull)
  ∈ proofElement <$> proofHashesOf allFields disclosedFieldNames.
Proof.
  intros Hin Hmember Hname member.
  assert (Hleaf : Js.get name (leaves (buildMerkleTree allFields)) = member).
  { unfold Js.get, member. rewrite buildMerkleTree_leaves.
    apply includes_elem_of in Hmember.
    destruct Hname as [->|Hname].
    - by rewrite leaves_never_proto.
    - rewrite (leaves_fold_keys allFields [] name Hname). cbn [Js.obj_get].
      by rewrite Hmember. }
  assert (Hread : Js.get name allFields ≠ Js.Undefined).
  { unfold Js.get. apply includes_elem_of in Hmember.
    destruct (Js.obj_get name allFields); [done|].
    destruct (String.eqb name "__proto__"); [done|]. by rewrite Hmember. }
  assert (Hmem : member ∈ proofHashesOf allFields disclosedFieldNames).
  { unfold proofHashesOf, Js.sortAny. rewrite merge_sort_Permutation.
    unfold collectProofHashes. rewrite hidden_loop. apply elem_of_app. left.
    rewrite <- Hleaf. by apply proofHashes_push. }
  split; [exact Hmem|].
  apply list_elem_of_fmap. exists member. split; [|exact Hmem].
  unfold member. by destruct (String.eqb name "__proto__").
Qed.

End DisclosureExtras.

(** ** Envelopes *)

Lemma foldM_app {A B} (f : A → B → M A) (a : A) (l1 l2 : list B) (e : Entropy) :
  foldM f a (l1 ++ l2) e
  = match foldM f a l1 e with
    | Ok (a', e') => foldM f a' l2 e'
    | Throw message => Throw message
    end.
Proof.
  revert a e. induction l1 as [|b l1 IH]; intros a e; [done|].
  cbn [app]. rewrite !foldM_cons. destruct (f a b e) as [[a' e']|]; [apply IH|done].
Qed.

Section EnvelopeExtras.

Context `{J : Json} `{C : NodeCrypto} `{E : Elliptic}.

Lemma wrapStep_inv (dek : list byte) (m m1 : gmap string string) (pub : string)
    (e e1 : Entropy) :
  wrapStep dek m pub e = Ok (m1, e1) →
  ∃ w, encryptDEKForParty dek pub None e = Ok (w, e1) ∧ m1 = <[hashPublicKey pub := w]> m.
Proof.
  unfold wrapStep. unfold_monad.
  destruct (encryptDEKForParty dek pub None e) as [[w e0]|]; [|done].
  intros [= <- <-]. by exists w.
Qed.

Lemma wrap_loop_dom (dek : list byte) (K : list string) :
  ∀ (m m' : gmap string string) (e e' : Entropy),
    foldM (wrapStep dek) m K e = Ok (m', e') →
    dom m' = dom m ∪ list_to_set (hashPublicKey <$> K).
Proof.
  induction K as [|pub K IH]; intros m m' e e' Hrun.
  - rewrite foldM_nil in Hrun. injection Hrun as <- _. cbn. by rewrite (right_id_L ∅ (∪)).
  - rewrite foldM_cons in Hrun.
    destruct (wrapStep dek m pub e) as [[m1 e1]|] eqn:Hstep; [|done].
    apply wrapStep_inv in Hstep as (w & _ & ->).
    rewrite (IH _ _ _ _ Hrun), dom_insert_L. cbn [fmap list_fmap list_to_set].
    by rewrite (assoc_L (∪)), (comm_L (∪) _ (dom m)).
Qed.

Lemma encryptDEKForParty_shape `{!EllipticLaws} (dek : list byte) (pub w : string)
    (e e' : Entropy) :
  encryptDEKForParty dek pub None e = Ok (w, e') → wrappedShape w.
Proof.
  unfold encryptDEKForParty, genKeyPair, encryptWithAES, randomBytes. unfold_monad.
  destruct (ec_genKeyPair e) as [eph e0].
  destruct (ec_keyFromPublic pub) as [p|]; [|done].
  destruct (ec_derive eph p) as [secret|]; [|done].
  generalize (map e0 (seq 0 12)). intros ivb.
  destruct (aes256gcm_encrypt _ _ _) as [[ct tag]|]; [|done].
  intros Heq.
  exists (ec_encodePoint (ec_getPublic eph)), (Hex.toString ct), (Hex.toString ivb),
         (Hex.toString tag).
  split; [congruence|].
  split_and!; [apply encodePoint_hex | apply toString_lowerHex..].
Qed.

Lemma wrap_loop_shape `{!EllipticLaws} (dek : list byte) (K : list string) :
  ∀ (m m' : gmap string string) (e e' : Entropy),
    foldM (wrapStep dek) m K e = Ok (m', e') →
    ∀ fp w, m' !! fp = Some w → m !! fp = Some w ∨ wrappedShape w.
Proof.
  induction K as [|pub K IH]; intros m m' e e' Hrun fp w Hw.
  - rewrite foldM_nil in Hrun. injection Hrun as <- _. by left.
  - rewrite foldM_cons in Hrun.
    destruct (wrapStep dek m pub e) as [[m1 e1]|] eqn:Hstep; [|done].
    apply wrapStep_inv in Hstep as (w1 & Hw1 & ->).
    destruct (IH _ _ _ _ Hrun fp w Hw) as [Hin|Hshape]; [|by right].
    apply lookup_insert_Some in Hin as [[_ <-]|[_ Hin]]; [|by left].
    right. by eapply encryptDEKForParty_shape.
Qed.

Context `{!JsonLaws} `{!NodeCryptoLaws} `{!EllipticLaws}.

(** X10. Under a 32-byte key [encryptWithAES] draws 12 bytes for the iv,
    returns ciphertext, iv and tag as lower-case hexadecimal text, and
    [decryptWithAES] under the same key gives the data back. *)
Theorem decryptWithAES_encryptWithAES (data : string) (key : list byte) (e : Entropy) :
  length key = 32%nat →
  ∃ ciphertext iv authTag e',
    encryptWithAES data key e = Ok ((ciphertext, iv, authTag), e') ∧
    iv = Hex.toString (map e (seq 0 12)) ∧ String.length iv = 24%nat ∧
    (∀ i, e' i = e (12 + i)%nat) ∧
    lowerHex ciphertext ∧ lowerHex authTag ∧
    decryptWithAES ciphertext key iv authTag = Ok data.
Proof.
  intros Hlen. unfold encryptWithAES, decryptWithAES, randomBytes. unfold_monad.
  destruct (aes256gcm_round_trip key (map e (seq 0 12)) (Js.utf8 data) Hlen)
    as (ct & tag & Henc & Hdec).
  rewrite Henc. eexists _, _, _, _. split; [reflexivity|].
  rewrite !hex_round_trip, Hdec, utf8_round_trip.
  split_and!; [done| |done|apply toString_lowerHex..|done].
  by rewrite toString_length, length_map, length_seq.
Qed.

(** X11. A key wrapped by [encryptDEKForParty] for a well-formed public key
    is a non-empty text from which [decryptDEKWithPrivateKey] recovers the
    key with the private key of any key pair of that public point. *)
Theorem decryptDEKWithPrivateKey_encryptDEKForParty (dek : list byte) (pub : string)
    (e : Entropy) :
  wellFormedPublicKey pub →
  ∃ wrapped e',
    encryptDEKForParty dek pub None e = Ok (wrapped, e') ∧
    wrapped ≠ EmptyString ∧
    ∀ kp, isKeyPair kp → ec_keyFromPublic (publicKey kp) = ec_keyFromPublic pub →
          decryptDEKWithPrivateKey wrapped (privateKey kp) = Ok dek.
Proof.
  intros Hwf.
  destruct (encryptDEKForParty_ok dek pub e Hwf) as (w & e' & Hw & Hne & Hopen).
  exists w, e'. split_and!; [done..|].
  intros kp (k & Hk & Hpriv & Hpub) Hsame.
  apply (Hopen _ k Hpriv Hk). by rewrite <- Hsame.
Qed.

(** X12. The envelope made for well-formed keys holds wrapped keys under
    the fingerprints of the recipients and under nothing else; recipients
    that share a fingerprint share one entry, so there are at most as many
    entries as recipients. *)
Theorem createEncryptedEnvelope_keys (P : Value) (K : list string) (e : Entropy) :
  Forall wellFormedPublicKey K →
  ∃ env e',
    createEncryptedEnvelope P K e = Ok (env, e') ∧
    dom (encryptedKeys env) = list_to_set (hashPublicKey <$> K) ∧
    (size (encryptedKeys env) ≤ length K)%nat.
Proof.
  intros HK. rewrite createEncryptedEnvelope_unfold.
  set (dek := map e (seq 0 32)).
  assert (Hlen : length dek = 32%nat) by (unfold dek; by rewrite length_map, length_seq).
  destruct (encryptWithAES_ok (JSON_stringify P) dek (fun i => e (32 + i)%nat) Hlen)
    as (c & i & t & e1 & Henc & _).
  rewrite Henc.
  destruct (wrap_loop_ok dek K HK ∅ e1) as (m' & e2 & Hrun & _).
  rewrite Hrun. eexists _, _. split; [reflexivity|]. cbn [encryptedKeys].
  pose proof (wrap_loop_dom _ _ _ _ _ _ Hrun) as Hdom.
  rewrite dom_empty_L, (left_id_L ∅ (∪)) in Hdom. split; [done|].
  rewrite <- size_dom, Hdom.
  rewrite <- (length_fmap hashPublicKey K).
  generalize (hashPublicKey <$> K). intros l.
  induction l as [|x l IH]; cbn; [by rewrite size_empty|].
  destruct (decide (x ∈ (list_to_set l : gset string))) as [Hin|Hout].
  - rewrite (subseteq_union_1_L {[x]} (list_to_set l))
      by (by apply singleton_subseteq_l). lia.
  - rewrite size_union by (by apply disjoint_singleton_l).
    rewrite size_singleton. lia.
Qed.

(** X13. When a recipient key does not decode, [createEncryptedEnvelope]
    throws the library's error for the first such key and returns no
    envelope, however many well-formed keys come before it. *)
Theorem createEncryptedEnvelope_malformed_key (P : Value) (K1 K2 : list string)
    (bad message : string) (e : Entropy) :
  Forall wellFormedPublicKey K1 →
  ec_keyFromPublic bad = Throw message →
  createEncryptedEnvelope P (K1 ++ bad :: K2) e = Throw message.
Proof.
  intros HK Hbad. rewrite createEncryptedEnvelope_unfold.
  set (dek := map e (seq 0 32)).
  assert (Hlen : length dek = 32%nat) by (unfold dek; by rewrite length_map, length_seq).
  destruct (encryptWithAES_ok (JSON_stringify P) dek (fun i => e (32 + i)%nat) Hlen)
    as (c & i & t & e1 & Henc & _).
  rewrite Henc, foldM_app.
  destruct (wrap_loop_ok dek K1 HK ∅ e1) as (m' & e2 & Hrun & _).
  rewrite Hrun, foldM_cons.
  unfold wrapStep at 1, encryptDEKForParty, genKeyPair. unfold_monad.
  destruct (ec_genKeyPair e2) as [eph e3]. by rewrite Hbad.
Qed.

(** X14. A key pair made by [generateKeyPair] opens an envelope addressed to
    its public key: the payload comes back when it survives
    [JSON.parse(JSON.stringify(P))]. *)
Theorem generateKeyPair_opens_envelope (P : Value) (e0 e : Entropy) :
  JSON_parse (JSON_stringify P) = Ok P →
  ∃ kp e1 env e2,
    generateKeyPair e0 = Ok (kp, e1) ∧ isKeyPair kp ∧
    createEncryptedEnvelope P [publicKey kp] e = Ok (env, e2) ∧
    decryptEnvelope env (privateKey kp) (publicKey kp)
    = Ok {| success := true; data := Some P; error := None |}.
Proof.
  intros HP. unfold generateKeyPair, genKeyPair. unfold_monad.
  pose proof (genKeyPair_valid e0) as Hk.
  destruct (ec_genKeyPair e0) as [k e1]. cbn in Hk.
  set (kp := {| privateKey := ec_getPrivateHex k;
                publicKey := ec_encodePoint (ec_getPublic k) |}).
  assert (Hkp : isKeyPair kp).
  { exists k. split_and!; [done|by apply keyFromPrivate_hex|by apply keyFromPublic_hex]. }
  assert (Hwf : Forall wellFormedPublicKey [publicKey kp]).
  { apply Forall_singleton. exists k. split; [done|by apply keyFromPublic_hex]. }
  destruct (createEncryptedEnvelope_ok P [publicKey kp] e Hwf)
    as (env & e2 & Hcreate & _ & dek & Hdata & Hall).
  exists kp, e1, env, e2. split_and!; [done..|].
  destruct (Hall (publicKey kp)) as (pub' & w & Hin' & Hfp' & Hlook & Hne & Hopen).
  { apply list_elem_of_singleton. done. }
  apply list_elem_of_singleton in Hin' as ->.
  unfold decryptEnvelope, decryptEnvelope_try. rewrite Hlook.
  destruct w as [|c0 w]; [done|].
  rewrite (Hopen (privateKey kp) k (keyFromPrivate_hex k Hk) Hk (keyFromPublic_hex k Hk)).
  unfold_monad. by rewrite Hdata, HP.
Qed.

(** X15. A recipient who presents a private key that is not theirs: every
    entry of a created envelope is the JSON text of a wrapped key, and when
    AES-GCM rejects the wrapped data key under the secret derived from the
    presented private key, [decryptEnvelope] does not throw; it answers
    [success: false] with the cipher's message and no data. *)
Theorem decryptEnvelope_wrong_private_key (P : Value) (K : list string)
    (publicKey : string) (e : Entropy) :
  Forall wellFormedPublicKey K →
  publicKey ∈ K →
  ∃ env e' ephemeralPublicKey encryptedDek iv authTag,
    createEncryptedEnvelope P K e = Ok (env, e') ∧
    encryptedKeys env !! hashPublicKey publicKey
    = Some (JSON_stringify (wrappedKey ephemeralPublicKey encryptedDek iv authTag)) ∧
    ∀ privateKey k ephemeral secret message,
      ec_keyFromPrivate privateKey = Ok k →
      ec_keyFromPublic ephemeralPublicKey = Ok ephemeral →
      ec_derive k ephemeral = Ok secret →
      aes256gcm_decrypt (sha256 secret) (Hex.from iv) (Hex.from authTag) (Hex.from encryptedDek)
      = Throw message →
      decryptEnvelope env privateKey publicKey
      = Ok {| success := false; data := None; error := Some message |}.
Proof.
  intros HK Hin.
  destruct (createEncryptedEnvelope_ok P K e HK)
    as (env & e' & Hcreate & _ & dek & _ & Hall).
  destruct (Hall _ Hin) as (pub' & w & _ & _ & Hlook & Hne & _).
  assert (Hshape : wrappedShape w).
  { rewrite createEncryptedEnvelope_unfold in Hcreate.
    destruct (encryptWithAES _ _ _) as [[[[c i] t] e1]|]; [|done].
    destruct (foldM _ _ _ _) as [[m e2]|] eqn:Hrun; [|done].
    injection Hcreate as <- _. cbn [encryptedKeys] in Hlook.
    destruct (wrap_loop_shape _ _ _ _ _ _ Hrun _ _ Hlook) as [Hempty|Hs]; [|done].
    by rewrite lookup_empty in Hempty. }
  destruct Hshape as (a & b & c & d & -> & Ha & Hb & Hc & Hd).
  exists env, e', a, b, c, d. split; [done|]. split; [done|].
  intros privateKey k ephemeral secret message Hpriv Heph Hsecret Hreject.
  unfold decryptEnvelope, decryptEnvelope_try. rewrite Hlook.
  destruct (JSON_stringify (wrappedKey a b c d)) as [|c0 w] eqn:Hw; [done|].
  unfold decryptDEKWithPrivateKey, decryptWithAES. unfold_monad.
  rewrite <- Hw, wrappedKey_round_trip by done.
  cbn. by rewrite Hpriv, Heph, Hsecret, Hreject.
Qed.

End EnvelopeExtras.

(** ** The transaction routes *)

Lemma filter_obj_set_dropped {V} (p : string → bool) (k : string) (v : V)
    (o : list (string * V)) :
  p k = false →
  List.filter (fun '(k', _) => p k') (Js.obj_set k v o)
  = List.filter (fun '(k', _) => p k') o.
Proof.
  intros Hk. induction o as [|[k0 v0] o IH]; cbn.
  - by rewrite Hk.
  - destruct (String.eqb_spec k k0) as [->|Hne]; cbn.
    + by rewrite Hk.
    + by rewrite IH.
Qed.

(** X16. The decrypt route gives back the payload of the create route
    without the two internal fields: a payload field named [_nonce] or
    [_transactionId] is lost on the way, and a payload with neither name
    comes back unchanged. *)
Theorem withoutInternalFields_withInternalFields (payload : list (string * Value))
    (nonce transactionId : string) :
  Transactions.withoutInternalFields
    (Transactions.withInternalFields payload nonce transactionId)
  = Transactions.withoutInternalFields payload ∧
  ("_nonce" ∉ payload.*1 → "_transactionId" ∉ payload.*1 →
   Transactions.withoutInternalFields payload = payload).
Proof.
  split.
  - unfold Transactions.withoutInternalFields, Transactions.withInternalFields.
    rewrite (filter_obj_set_dropped
               (fun k => negb (String.eqb k "_nonce") && negb (String.eqb k "_transactionId")))
      by reflexivity.
    by rewrite (filter_obj_set_dropped
               (fun k => negb (String.eqb k "_nonce") && negb (String.eqb k "_transactionId")))
      by reflexivity.
  - unfold Transactions.withoutInternalFields.
    induction payload as [|[k v] payload IH]; [done|]. cbn.
    intros [Hn1 Hn2]%not_elem_of_cons [Ht1 Ht2]%not_elem_of_cons.
    destruct (String.eqb_spec k "_nonce"); [by subst|].
    destruct (String.eqb_spec k "_transactionId"); [by subst|].
    cbn. f_equal. by apply IH.
Qed.

Section PartyEnvelope.

Context `{J : Json} `{C : NodeCrypto} `{E : Elliptic}.

(** X17. The envelope rebuilt from one party's stored record opens exactly
    as the whole envelope does for that party's key, whatever the private
    key; for a key with another fingerprint it answers "Not authorized to
    decrypt this data". *)
Theorem decryptEnvelope_partyEnvelope (envelope : EncryptedEnvelope)
    (encryptionKey privateKey : string) :
  decryptEnvelope (Transactions.partyEnvelope envelope encryptionKey) privateKey encryptionKey
  = decryptEnvelope envelope privateKey encryptionKey ∧
  ∀ otherKey,
    hashPublicKey otherKey ≠ hashPublicKey encryptionKey →
    decryptEnvelope (Transactions.partyEnvelope envelope encryptionKey) privateKey otherKey
    = Ok notAuthorized.
Proof.
  split.
  - unfold decryptEnvelope, decryptEnvelope_try, Transactions.partyEnvelope.
    cbn [encryptedKeys encryptedData iv authTag].
    destruct (encryptedKeys envelope !! hashPublicKey encryptionKey) as [w|].
    + by rewrite lookup_singleton_eq.
    + by rewrite lookup_empty.
  - intros otherKey Hne. apply decryptEnvelope_missing.
    unfold Transactions.partyEnvelope. cbn [encryptedKeys].
    destruct (encryptedKeys envelope !! hashPublicKey encryptionKey) as [w|].
    + by rewrite lookup_singleton_ne.
    + apply lookup_empty.
Qed.

End PartyEnvelope.

Lemma filter_length_all {A} (f : A → bool) (l : list A) :
  (length (List.filter f l) ≤ length l)%nat ∧
  (length (List.filter f l) = length l ↔ forallb f l = true).
Proof.
  induction l as [|x l [IH1 IH2]]; cbn; [done|].
  destruct (f x); cbn.
  - split; [lia|]. rewrite <- IH2. lia.
  - split; [lia|]. split; [lia|done].
Qed.

Lemma filter_length_pos {A} (f : A → bool) (l : list A) (x : A) :
  x ∈ l → f x = true → (0 < length (List.filter f l))%nat.
Proof.
  induction l as [|y l IH]; [by intros ?%elem_of_nil|].
  intros [->|Hin]%elem_of_cons Hx; cbn.
  - rewrite Hx. cbn. lia.
  - destruct (f y); cbn; [lia|by apply IH].
Qed.

(** X18. When the signing party is a signatory of the transaction, the
    status written after its signature is FULLY_SIGNED if every other
    signatory has a signature on record and PARTIALLY_SIGNED otherwise; it
    never stays what it was. *)
Theorem statusAfterSigning_signatory (parties : list Transactions.TransactionParty)
    (currentPartyId status : string) (p : Transactions.TransactionParty) :
  p ∈ parties →
  Transactions.partyId p = currentPartyId →
  Transactions.role p = "SIGNATORY" →
  Transactions.statusAfterSigning parties currentPartyId status
  = if forallb (Transactions.signedBy currentPartyId) (Transactions.signatories parties)
    then "FULLY_SIGNED" else "PARTIALLY_SIGNED".
Proof.
  intros Hin Hid Hrole. unfold Transactions.statusAfterSigning.
  set (all := Transactions.signatories parties).
  assert (Hp : p ∈ all).
  { unfold all, Transactions.signatories. apply list_elem_of_In, filter_In.
    split; [by apply list_elem_of_In|]. rewrite Hrole. reflexivity. }
  assert (Hsigned : Transactions.signedBy currentPartyId p = true).
  { unfold Transactions.signedBy. rewrite Hid, String.eqb_refl. apply orb_true_r. }
  pose proof (filter_length_pos _ _ _ Hp Hsigned) as Hpos.
  destruct (filter_length_all (Transactions.signedBy currentPartyId) all) as [Hle Hiff].
  destruct (forallb _ all) eqn:Hall.
  - rewrite (proj2 Hiff eq_refl), Nat.eqb_refl. reflexivity.
  - destruct (Nat.eqb_spec (length (List.filter (Transactions.signedBy currentPartyId) all))
                           (length all)) as [Heq|Hne].
    + apply Hiff in Heq. congruence.
    + apply Nat.ltb_lt in Hpos. by rewrite Hpos.
Qed.

(** X19. The party hint that the commit route derives from a stored wrapped
    key is the same for every wrapped key: the text of a JSON object begins
    with a brace, which is no hexadecimal digit, so the hint is 0x followed
    by the fingerprint of the empty buffer. *)
Theorem partyHint_constant (rest : string) :
  Transactions.partyHint (String "{" rest) = "0x" +:+ emptyFingerprint.
Proof.
  unfold Transactions.partyHint. f_equal.
  unfold hashPublicKey.
  assert (Hfrom : Hex.from (Js.substring0 66 (String "{" rest)) = []).
  { apply from_not_hex. unfold Js.substring0. cbn [String.substring].
    by destruct (String.substring 0 65 rest). }
  rewrite Hfrom. vm_compute. reflexivity.
Qed.

(** X20. For every type other than the twelve inherited names, among them
    the five types that the create route accepts, the type number that the
    commit route sends to the ledger lies between 1 and 4: TRADE_FINANCE,
    whose table entry is 0, is sent as 4 like CUSTOM and like a type that is
    not in the table. An inherited name is passed on as the inherited
    member, which is no number. *)
Theorem txTypeNumber_never_zero (txType : string) :
  txType ∉ Js.prototypeMembers →
  (∃ n, Transactions.txTypeNumber txType = Js.Data n ∧ (1 ≤ n ≤ 4)%Z) ∧
  Transactions.txTypeNumber "TRADE_FINANCE" = Js.Data 4%Z ∧
  Transactions.txTypeNumber "CUSTOM" = Js.Data 4%Z ∧
  ∀ member, member ∈ Js.prototypeMembers →
            ∀ n, Transactions.txTypeNumber member ≠ Js.Data n.
Proof.
  intros Htype. split_and!.
  - destruct (not_prototypeMember txType Htype) as [Hproto Hmember].
    unfold Transactions.txTypeNumber, Js.get, Transactions.txTypeMap. cbn [Js.obj_get].
    rewrite Hproto, Hmember.
    destruct (String.eqb txType "TRADE_FINANCE"); [exists 4%Z; split; [reflexivity|lia]|].
    destruct (String.eqb txType "RWA_TRANSFER"); [exists 1%Z; split; [reflexivity|lia]|].
    destruct (String.eqb txType "DVP_SETTLEMENT"); [exists 2%Z; split; [reflexivity|lia]|].
    destruct (String.eqb txType "PAYMENT"); [exists 3%Z; split; [reflexivity|lia]|].
    destruct (String.eqb txType "CUSTOM"); exists 4%Z; (split; [reflexivity|lia]).
  - reflexivity.
  - reflexivity.
  - intros member Hmember n.
    repeat (apply elem_of_cons in Hmember as [->|Hmember]; [discriminate|]).
    by apply elem_of_nil in Hmember.
Qed.

(** ** The commitment verification route *)

Section CommitmentRoute.

Context `{J : Json}.

(** X21. The route answers 400 exactly when one of [data], [nonce] and
    [expectedCommitment] is missing or falsy; so a payload that is 0, false,
    the empty string or null cannot be checked, whatever its commitment. *)
Theorem commitments_verify_missing (requestBody : Value)
    (known : option Commitments.KnownTransaction) (e : Entropy) :
  Disclosures.status (Commitments.verify requestBody known e) = 400%nat
  ↔ Commitments.truthy (property requestBody "data")
    && Commitments.truthy (property requestBody "nonce")
    && Commitments.truthy (property requestBody "expectedCommitment") = false.
Proof.
  unfold Commitments.verify.
  destruct (property requestBody "data") as [d|]; [|done].
  destruct (property requestBody "nonce") as [n|]; [|by rewrite andb_false_r].
  destruct (property requestBody "expectedCommitment") as [x|]; [|by rewrite andb_false_r].
  destruct (Commitments.truthy (Some d) && Commitments.truthy (Some n)
            && Commitments.truthy (Some x)); [|done].
  destruct (run _ e); cbn; split; discriminate.
Qed.

(** X22. Sent a truthy payload, a non-empty nonce and the commitment that
    [generateCommitment] made of them, in any letter case, the route answers
    200 with [valid: true]. *)
Theorem commitments_verify_round_trip (P : Value) (n expected : string)
    (known : option Commitments.KnownTransaction) (e e' : Entropy) :
  Commitments.truthy (Some P) = true →
  n ≠ EmptyString →
  (∃ c e1, generateCommitment P (Some n) e = Ok (c, e1) ∧
           Js.toLowerCase expected = commitment c) →
  let response :=
    Commitments.verify
      (VObject [("data", P); ("nonce", VString n); ("expectedCommitment", VString expected)])
      known e' in
  Disclosures.status response = 200%nat ∧
  property (Disclosures.body response) "valid" = Some (VBool true) ∧
  property (Disclosures.body response) "message"
  = Some (VString "Data matches the commitment hash").
Proof.
  intros HP Hn (c & e1 & Hgen & Hlow).
  rewrite (generateCommitment_given P n e Hn) in Hgen. injection Hgen as <- _.
  cbn [commitment] in Hlow.
  assert (Hx : expected ≠ EmptyString).
  { intros ->. apply (f_equal String.length) in Hlow.
    rewrite append_length in Hlow. discriminate Hlow. }
  unfold Commitments.verify. cbn [property Js.obj_get String.eqb Ascii.eqb Bool.eqb].
  rewrite HP. destruct n as [|a n]; [done|]. destruct expected as [|b x]; [done|].
  cbn [Commitments.truthy andb Commitments.verifyCryptoCommitment].
  rewrite (verifyCommitment_given P (String a n) (String b x) e' Hn), Hlow.
  rewrite String.eqb_refl. cbn. done.
Qed.

End CommitmentRoute.

(** ** The payload of a new disclosure *)

Section DisclosureCreateTheorems.

Context `{J : Json}.

Lemma placeholders_keys (names : list string) : (placeholders names).*1 = names.
Proof. induction names as [|n names IH]; cbn; [done|]. by f_equal. Qed.

Lemma samplePayload_fold (names : list string) (acc : list (string * Value)) :
  "__proto__" ∉ names →
  fold_left (fun samplePayload field =>
               Js.assign field (VString ("[Disclosed: " +:+ field +:+ "]")) samplePayload)
            names acc
  = fold_left (fun samplePayload field =>
                 Js.define field (VString ("[Disclosed: " +:+ field +:+ "]")) samplePayload)
              names acc.
Proof.
  revert acc. induction names as [|n names IH]; intros acc Hproto; [done|].
  apply not_elem_of_cons in Hproto as [Hn Hproto]. cbn [fold_left].
  rewrite (IH _ Hproto). unfold Js.assign.
  by destruct (String.eqb_spec n "__proto__").
Qed.

Lemma placeholders_fold_Permutation (names : list string) (acc : list (string * Value)) :
  NoDup (acc.*1 ++ names) →
  fold_left (fun samplePayload field =>
               Js.define field (VString ("[Disclosed: " +:+ field +:+ "]")) samplePayload)
            names acc
  ≡ₚ acc ++ placeholders names.
Proof.
  revert acc. induction names as [|n names IH]; intros acc Hnd; cbn [fold_left].
  - cbn. by rewrite app_nil_r.
  - apply NoDup_app in Hnd as (Hacc & Hdisj & Hn).
    apply NoDup_cons in Hn as [Hn Hnames].
    assert (Hfresh : Js.obj_get n acc = None).
    { apply obj_get_None_keys. intros Hin. apply (Hdisj _ Hin). by left. }
    rewrite IH.
    + rewrite (define_Permutation n _ acc Hfresh). cbn [placeholders map].
      by rewrite <- Permutation_middle.
    + rewrite (define_Permutation n _ acc Hfresh). cbn.
      apply NoDup_cons. split.
      * intros [Hin|Hin]%elem_of_app; [|done]. apply (Hdisj _ Hin). by left.
      * apply NoDup_app. split_and!; [done| |done].
        intros x Hx Hx'. apply (Hdisj x Hx). by right.
Qed.

Lemma placeholders_fold_lookup (names : list string) (acc : list (string * Value))
    (n : string) :
  n ∈ names →
  Js.obj_get n
    (fold_left (fun samplePayload field =>
                  Js.define field (VString ("[Disclosed: " +:+ field +:+ "]")) samplePayload)
               names acc)
  = Some (VString ("[Disclosed: " +:+ n +:+ "]")).
Proof.
  revert acc. induction names as [|m names IH]; intros acc Hin.
  - by apply elem_of_nil in Hin.
  - cbn [fold_left]. destruct (decide (n ∈ names)) as [Hn|Hn]; [by apply IH|].
    apply elem_of_cons in Hin as [->|Hin]; [|done].
    clear IH. revert acc. induction names as [|k names IH]; intros acc.
    + cbn. by rewrite obj_get_define, String.eqb_refl.
    + apply not_elem_of_cons in Hn as [Hne Hn]. cbn [fold_left] in *.
      specialize (IH Hn). cbn [fold_left].
      assert (Hswap : ∀ o, Js.obj_get m
                (fold_left (fun samplePayload field =>
                   Js.define field (VString ("[Disclosed: " +:+ field +:+ "]")) samplePayload)
                   names o) = Js.obj_get m o).
      { clear -Hn. induction names as [|j names IHn]; intros o; [done|].
        apply not_elem_of_cons in Hn as [Hj Hn]. cbn [fold_left].
        rewrite (IHn Hn), obj_get_define. by destruct (String.eqb_spec m j). }
      rewrite Hswap, obj_get_define.
      destruct (String.eqb_spec m k); [done|].
      by rewrite obj_get_define, String.eqb_refl.
Qed.

Lemma collect_placeholders (samplePayload : list (string * Value)) (names : list string)
    (own : list (string * Value)) :
  "__proto__" ∉ names →
  (∀ n, n ∈ names →
        Js.obj_get n samplePayload = Some (VString ("[Disclosed: " +:+ n +:+ "]"))) →
  fold_left (fun disclosedFields fieldName =>
               match Js.get fieldName samplePayload with
               | Js.Undefined => disclosedFields
               | x => assignDisclosed fieldName x disclosedFields
               end) names (prod_map id Js.Data <$> own, true)
  = (prod_map id Js.Data
       <$> fold_left (fun samplePayload field =>
                        Js.define field (VString ("[Disclosed: " +:+ field +:+ "]"))
                          samplePayload)
                     names own,
     true).
Proof.
  revert own. induction names as [|n names IH]; intros own Hproto Hlookup; [done|].
  apply not_elem_of_cons in Hproto as [Hn Hproto]. cbn [fold_left].
  rewrite (get_own n _ _ (Hlookup n ltac:(by left))). cbv beta iota.
  unfold assignDisclosed.
  destruct (String.eqb_spec n "__proto__") as [|_]; [done|]. cbn [andb].
  rewrite (define_fmap Js.Data).
  apply IH; [done|]. intros m Hm. apply Hlookup. by right.
Qed.

(** X23. For a request that names no field twice and does not name
    [__proto__], the disclosure route builds a payload of one placeholder
    text per named field, discloses all of it, and its proof is the sorted
    list of the leaf digests of those placeholders; no value of the
    transaction enters the proof. *)
Theorem disclosure_of_samplePayload (names : list string) :
  NoDup names →
  "__proto__" ∉ names →
  DisclosureCreate.samplePayload names ≡ₚ placeholders names ∧
  disclosedFields
    (generateMerkleProof (DisclosureCreate.samplePayload names) names)
  = prod_map id Js.Data <$> DisclosureCreate.samplePayload names ∧
  proofHashesOf (DisclosureCreate.samplePayload names) names
  = Js.Data <$> Js.sort (leafDigests (placeholders names)).
Proof.
  intros Hnd Hproto.
  assert (Hsample : DisclosureCreate.samplePayload names ≡ₚ placeholders names).
  { unfold DisclosureCreate.samplePayload. rewrite samplePayload_fold by done.
    by rewrite (placeholders_fold_Permutation names []). }
  assert (Hkeys : (DisclosureCreate.samplePayload names).*1 ≡ₚ names).
  { by rewrite Hsample, placeholders_keys. }
  assert (Hlookup : ∀ n, n ∈ names →
            Js.obj_get n (DisclosureCreate.samplePayload names)
            = Some (VString ("[Disclosed: " +:+ n +:+ "]"))).
  { intros n Hn. unfold DisclosureCreate.samplePayload. rewrite samplePayload_fold by done.
    by apply placeholders_fold_lookup. }
  split_and!.
  - exact Hsample.
  - cbn [generateMerkleProof disclosedFields]. unfold collectDisclosedFields.
    pose proof (collect_placeholders (DisclosureCreate.samplePayload names) names []
                  Hproto Hlookup) as Hcollect.
    change (prod_map id Js.Data <$> []) with (@nil (string * Js.Any Value)) in Hcollect.
    rewrite Hcollect. cbn [fst]. unfold DisclosureCreate.samplePayload. by rewrite samplePayload_fold.
  - rewrite proofHashesOf_digests.
    + f_equal. rewrite all_digests by (by rewrite ?Hkeys).
      apply sort_unique. by apply leafDigests_Permutation.
    + by rewrite Hkeys.
    + by rewrite Hkeys.
    + intros n Hn _. by rewrite Hkeys.
Qed.

End DisclosureCreateTheorems.

(** ** Concrete runs of the further properties *)

Lemma verifyCommitment_ignores_case_witness :
  run (verifyCommitment (VObject tradePayload) "n1"
         ("0X" +:+ Keccak.keccak256 (JSON_stringify (VObject tradePayload) +:+ "n1")))
      countingTape
  = Ok true.
Proof.
  apply (verifyCommitment_ignores_case (VObject tradePayload) "n1" _ countingTape countingTape).
  - discriminate.
  - eexists _, _. split.
    + apply generateCommitment_given. discriminate.
    + vm_compute. reflexivity.
Defined.

Lemma generateMerkleProof_disclosedFields_witness :
  Js.obj_get "constructor"
    (disclosedFields (generateMerkleProof tradePayload ["constructor"; "amount"]))
  = Some (Js.Builtin "constructor") ∧
  Js.obj_get "amount"
    (disclosedFields (generateMerkleProof tradePayload ["constructor"; "amount"]))
  = Some (Js.Data (VNumber 500000)) ∧
  Js.obj_get "buyer"
    (disclosedFields (generateMerkleProof tradePayload ["constructor"; "amount"]))
  = None.
Proof.
  split; [|split].
  - apply (generateMerkleProof_disclosedFields tradePayload ["constructor"; "amount"]
             "constructor").
    discriminate.
  - apply (generateMerkleProof_disclosedFields tradePayload ["constructor"; "amount"]
             "amount").
    discriminate.
  - apply (generateMerkleProof_disclosedFields tradePayload ["constructor"; "amount"]
             "buyer").
    discriminate.
Defined.

Lemma buildMerkleTree_leaves_lookup_witness :
  leaves (buildMerkleTree (("__proto__", VNull) :: tradePayload)) ≡ₚ leafEntries tradePayload ∧
  Js.obj_get "__proto__" (leaves (buildMerkleTree (("__proto__", VNull) :: tradePayload)))
  = None ∧
  ((("__proto__", VNull) :: tradePayload) ≠ [] →
   root (buildMerkleTree (("__proto__", VNull) :: tradePayload))
   = "0x" +:+ Keccak.keccak256
                (Js.join (Js.sort (leafDigests (("__proto__", VNull) :: tradePayload))))).
Proof.
  apply (buildMerkleTree_leaves_lookup (("__proto__", VNull) :: tradePayload) "__proto__").
  apply NoDup_cons. split.
  - intros Hin. apply elem_of_cons in Hin as [Hin|Hin]; [discriminate Hin|].
    apply list_elem_of_singleton in Hin. discriminate Hin.
  - apply NoDup_cons. split; [|apply NoDup_singleton].
    intros Hin. apply list_elem_of_singleton in Hin. discriminate Hin.
Defined.

Lemma proofHashesOf_all_leaves_witness :
  ∃ digests : list string,
    digests = Js.sort (leafDigests tradePayload) ∧
    proofHashesOf tradePayload ["amount"] = Js.Data <$> digests ∧
    proof (generateMerkleProof tradePayload ["amount"])
      = JSON_stringify (VArray (VString <$> digests)) ∧
    (tradePayload ≠ [] →
     "0x" +:+ Keccak.keccak256 (Js.join digests) = root (buildMerkleTree tradePayload)).
Proof.
  apply (proofHashesOf_all_leaves tradePayload ["amount"]).
  - apply NoDup_cons. split; [|apply NoDup_singleton].
    intros Hin. apply list_elem_of_singleton in Hin. discriminate Hin.
  - intros Hin. apply elem_of_cons in Hin as [Hin|Hin]; [discriminate Hin|].
    apply list_elem_of_singleton in Hin. discriminate Hin.
  - intros name Hname Hmember. apply list_elem_of_singleton in Hname as ->.
    apply elem_of_cons. by left.
  - apply NoDup_singleton.
Defined.

Lemma generateMerkleProof_inherited_name_witness :
  Js.Builtin "constructor" ∈ proofHashesOf tradePayload ["constructor"] ∧
  VNull ∈ proofElement <$> proofHashesOf tradePayload ["constructor"].
Proof.
  apply (generateMerkleProof_inherited_name tradePayload ["constructor"] "constructor").
  - apply list_elem_of_singleton. reflexivity.
  - apply elem_of_cons. by left.
  - right. intros Hin. apply elem_of_cons in Hin as [Hin|Hin]; [discriminate Hin|].
    apply list_elem_of_singleton in Hin. discriminate Hin.
Defined.

Lemma decryptWithAES_encryptWithAES_witness :
  ∃ ciphertext iv authTag e',
    encryptWithAES "secret" (map countingTape (seq 0 32)) countingTape
      = Ok ((ciphertext, iv, authTag), e') ∧
    iv = Hex.toString (map countingTape (seq 0 12)) ∧ String.length iv = 24%nat ∧
    (∀ i, e' i = countingTape (12 + i)%nat) ∧
    lowerHex ciphertext ∧ lowerHex authTag ∧
    decryptWithAES ciphertext (map countingTape (seq 0 32)) iv authTag = Ok "secret".
Proof.
  apply (decryptWithAES_encryptWithAES "secret" (map countingTape (seq 0 32)) countingTape).
  reflexivity.
Defined.

Lemma decryptDEKWithPrivateKey_encryptDEKForParty_witness :
  ∃ wrapped e',
    encryptDEKForParty (map countingTape (seq 0 32)) "0f" None countingTape
      = Ok (wrapped, e') ∧
    wrapped ≠ EmptyString ∧
    ∀ kp, isKeyPair kp → ec_keyFromPublic (publicKey kp) = ec_keyFromPublic "0f" →
          decryptDEKWithPrivateKey wrapped (privateKey kp)
          = Ok (map countingTape (seq 0 32)).
Proof.
  apply (decryptDEKWithPrivateKey_encryptDEKForParty
           (map countingTape (seq 0 32)) "0f" countingTape).
  exists x05. split; reflexivity.
Defined.

Lemma createEncryptedEnvelope_keys_witness :
  ∃ env e',
    createEncryptedEnvelope (VObject tradePayload) sampleRecipients countingTape
      = Ok (env, e') ∧
    dom (encryptedKeys env) = list_to_set (hashPublicKey <$> sampleRecipients) ∧
    (size (encryptedKeys env) ≤ length sampleRecipients)%nat.
Proof.
  apply (createEncryptedEnvelope_keys (VObject tradePayload) sampleRecipients countingTape).
  apply Forall_cons. split; [exists x05; split; reflexivity|].
  apply Forall_cons. split; [exists x0a; split; reflexivity|]. apply Forall_nil_2.
Defined.

Lemma createEncryptedEnvelope_malformed_key_witness :
  createEncryptedEnvelope (VObject tradePayload) (["0f"] ++ "zz" :: ["1e"]) countingTape
  = Throw "Unknown point format".
Proof.
  apply (createEncryptedEnvelope_malformed_key
           (VObject tradePayload) ["0f"] ["1e"] "zz" "Unknown point format" countingTape).
  - apply Forall_cons. split; [exists x05; split; reflexivity|]. apply Forall_nil_2.
  - reflexivity.
Defined.

Lemma generateKeyPair_opens_envelope_witness :
  ∃ kp e1 env e2,
    generateKeyPair countingTape = Ok (kp, e1) ∧ isKeyPair kp ∧
    createEncryptedEnvelope (VObject tradePayload) [publicKey kp] countingTape
      = Ok (env, e2) ∧
    decryptEnvelope env (privateKey kp) (publicKey kp)
    = Ok {| success := true; data := Some (VObject tradePayload); error := None |}.
Proof.
  apply (generateKeyPair_opens_envelope (VObject tradePayload) countingTape countingTape).
  vm_compute. reflexivity.
Defined.

Lemma decryptEnvelope_wrong_private_key_witness :
  (∃ env e' ephemeralPublicKey encryptedDek iv authTag,
     createEncryptedEnvelope (VObject tradePayload) sampleRecipients countingTape
       = Ok (env, e') ∧
     encryptedKeys env !! hashPublicKey "0f"
     = Some (JSON_stringify (wrappedKey ephemeralPublicKey encryptedDek iv authTag)) ∧
     ∀ privateKey k ephemeral secret message,
       ec_keyFromPrivate privateKey = Ok k →
       ec_keyFromPublic ephemeralPublicKey = Ok ephemeral →
       ec_derive k ephemeral = Ok secret →
       aes256gcm_decrypt (sha256 secret) (Hex.from iv) (Hex.from authTag)
         (Hex.from encryptedDek) = Throw message →
       decryptEnvelope env privateKey "0f"
       = Ok {| success := false; data := None; error := Some message |}) ∧
  run (env ← createEncryptedEnvelope (VObject tradePayload) sampleRecipients;
       lift (decryptEnvelope env "07" "0f")) countingTape
  = Ok {| success := false; data := None;
          error := Some "Unsupported state or unable to authenticate data" |}.
Proof.
  split.
  - apply (decryptEnvelope_wrong_private_key
             (VObject tradePayload) sampleRecipients "0f" countingTape).
    + apply Forall_cons. split; [exists x05; split; reflexivity|].
      apply Forall_cons. split; [exists x0a; split; reflexivity|]. apply Forall_nil_2.
    + apply elem_of_cons. by left.
  - vm_compute. reflexivity.
Defined.

Lemma statusAfterSigning_signatory_witness :
  Transactions.statusAfterSigning sampleParties "alice" "PENDING"
  = if forallb (Transactions.signedBy "alice") (Transactions.signatories sampleParties)
    then "FULLY_SIGNED" else "PARTIALLY_SIGNED".
Proof.
  apply (statusAfterSigning_signatory sampleParties "alice" "PENDING"
           {| Transactions.partyId := "alice"; Transactions.role := "SIGNATORY";
              Transactions.signature := None |}).
  - apply elem_of_cons. by left.
  - reflexivity.
  - reflexivity.
Defined.

Lemma commitments_verify_round_trip_witness :
  let response :=
    Commitments.verify
      (VObject [("data", VObject tradePayload); ("nonce", VString "n1");
                ("expectedCommitment",
                 VString ("0X" +:+ Keccak.keccak256
                            (JSON_stringify (VObject tradePayload) +:+ "n1")))])
      None countingTape in
  Disclosures.status response = 200%nat ∧
  property (Disclosures.body response) "valid" = Some (VBool true) ∧
  property (Disclosures.body response) "message"
  = Some (VString "Data matches the commitment hash").
Proof.
  apply (commitments_verify_round_trip (VObject tradePayload) "n1" _ None
           countingTape countingTape).
  - reflexivity.
  - discriminate.
  - eexists _, _. split.
    + apply generateCommitment_given. discriminate.
    + vm_compute. reflexivity.
Defined.

Lemma txTypeNumber_never_zero_witness :
  (∃ n, Transactions.txTypeNumber "TRADE_FINANCE" = Js.Data n ∧ (1 ≤ n ≤ 4)%Z) ∧
  Transactions.txTypeNumber "TRADE_FINANCE" = Js.Data 4%Z ∧
  Transactions.txTypeNumber "CUSTOM" = Js.Data 4%Z ∧
  ∀ member, member ∈ Js.prototypeMembers →
            ∀ n, Transactions.txTypeNumber member ≠ Js.Data n.
Proof.
  apply (txTypeNumber_never_zero "TRADE_FINANCE").
  intros Hin. apply includes_elem_of in Hin. discriminate Hin.
Defined.

Lemma disclosure_of_samplePayload_witness :
  DisclosureCreate.samplePayload ["buyer"; "7"] ≡ₚ placeholders ["buyer"; "7"] ∧
  disclosedFields
    (generateMerkleProof (DisclosureCreate.samplePayload ["buyer"; "7"]) ["buyer"; "7"])
  = prod_map id Js.Data <$> DisclosureCreate.samplePayload ["buyer"; "7"] ∧
  proofHashesOf (DisclosureCreate.samplePayload ["buyer"; "7"]) ["buyer"; "7"]
  = Js.Data <$> Js.sort (leafDigests (placeholders ["buyer"; "7"])).
Proof.
  apply (disclosure_of_samplePayload ["buyer"; "7"]).
  - apply NoDup_cons. split; [|apply NoDup_singleton].
    intros Hin. apply list_elem_of_singleton in Hin. discriminate Hin.
  - intros Hin. apply elem_of_cons in Hin as [Hin|Hin]; [discriminate Hin|].
    apply list_elem_of_singleton in Hin. discriminate Hin.
Defined.
